(** * joplin-plugin-pages-publisher: the page model, the article and site
      services and the git worker, embedded and checked against the
      specification.

    The file follows the sources one module per source file:
    - [JS]: the JavaScript values and string operations the sources use;
    - [Field], [Theme], [Page]: [domain/model/Page.ts];
    - [ArticleService]: the article collection and its url validation;
    - [SiteService]: theme loading with its fallback;
    - [WorkerGit]: the git worker ([initRepo], [publish]) as programs over
      the calls they issue, with a model of the repository they act on.

    Properties of objects are modelled by their own properties: a [gmap]
    from property names to values.  Names that a JavaScript object inherits
    from [Object.prototype] are not looked at. *)

From stdpp Require Import gmap strings list fin_maps pretty.

#[local] Set Warnings "-register-all".

(** ** Results of code that may throw *)

Inductive exn :=
  | TypeError (msg : string)
  | Error (msg : string).

Inductive result (A : Type) :=
  | Ok (a : A)
  | Err (e : exn).
Arguments Ok {A} a.
Arguments Err {A} e.

#[global] Instance result_ret : MRet result := λ A a, Ok a.
#[global] Instance result_bind : MBind result := λ A B f m,
  match m with Ok a => f a | Err e => Err e end.
#[global] Instance result_fmap : FMap result := λ A B f m,
  match m with Ok a => Ok (f a) | Err e => Err e end.

Definition is_Ok {A} (r : result A) : Prop := ∃ a, r = Ok a.

(** ** JavaScript values and strings *)

Module JS.

(** The values a persisted field can hold.  Numbers are kept as integers:
    the code under study only asks whether a value is a string. *)
Inductive value :=
  | VUndefined
  | VNull
  | VBool (b : bool)
  | VNum (n : Z)
  | VStr (s : string)
  | VArr (l : list value)
  | VObj (m : gmap string value).

(** lodash [isString] *)
Definition isString (v : value) : bool :=
  match v with VStr _ => true | _ => false end.

(** [strip_prefix p s] is [Some r] when [s = p ++ r]. *)
Fixpoint strip_prefix (p s : string) : option string :=
  match p, s with
  | EmptyString, _ => Some s
  | String a p', String b s' =>
      if Ascii.eqb a b then strip_prefix p' s' else None
  | String _ _, EmptyString => None
  end.

(** [s.replace(pat, rep)] with a string pattern: the first occurrence of
    [pat] in [s], wherever it is, is replaced. *)
Fixpoint replace_first (pat rep s : string) : string :=
  match strip_prefix pat s with
  | Some r => rep +:+ r
  | None =>
      match s with
      | EmptyString => EmptyString
      | String c s' => String c (replace_first pat rep s')
      end
  end.

(** [s.replace(new RegExp('^' + pat), '')] for a pattern without special
    characters: [pat] is removed when [s] starts with it. *)
Definition replace_anchored (pat s : string) : string :=
  match strip_prefix pat s with
  | Some r => r
  | None => s
  end.

(** The characters of a string, as one-character strings. *)
Fixpoint chars (s : string) : list value :=
  match s with
  | EmptyString => []
  | String c s' => VStr (String c EmptyString) :: chars s'
  end.

(** Index keys ["0"], ["1"], ... of an array-like. *)
Definition indexed (l : list value) : gmap string value :=
  list_to_map (imap (λ i v, (pretty i, v)) l).

(** The own enumerable properties lodash iterates over ([baseForOwn] with
    [keys]): those of an object, the indices of an array or of a string,
    and nothing for [null], [undefined], booleans and numbers. *)
Definition own_props (v : value) : gmap string value :=
  match v with
  | VObj m => m
  | VArr l => indexed l
  | VStr s => indexed (chars s)
  | _ => ∅
  end.

(** lodash [mapValues] with a callback that may throw: the callback runs on
    every own property and the first exception aborts. *)
Definition mapValues (object : value)
    (iteratee : value → string → result value) : result (gmap string value) :=
  list_to_map <$>
    mapM (λ kv, (λ v', (kv.1, v')) <$> iteratee kv.2 kv.1)
         (map_to_list (own_props object)).

(** [Object.assign(target, source)] on own properties. *)
Definition Object_assign (target source : gmap string value)
    : gmap string value :=
  source ∪ target.

(** lodash [difference(array, values)]: the elements of [array], in order,
    that are not in [values]. *)
Definition difference (array values : list string) : list string :=
  filter (λ x, x ∉ values) array.

End JS.

(** ** [domain/model/Page.ts] *)

Module Field.

Inductive InputType :=
  | input | select | multiple_select | textarea | radio
  | checkbox | date | switch | markdown | number.

#[global] Instance InputType_eq_dec : EqDecision InputType.
Proof. solve_decision. Defined.

Record t := mk {
  name : string;
  label : option string;
  tip : option string;
  placeholder : option string;
  defaultValue : option JS.value;
  rules : option (list (gmap string JS.value));
  inputType : option InputType;
  options : option (list (string * string));
}.

End Field.

Module Theme.

(** Modelled from the spec: the [Theme] type ([./Theme] is not among the
    sources).  A theme has a name, per-page field declarations and site
    fields; its templates play no role here. *)
Record t := mk {
  name : string;
  pages : gmap string (list Field.t);
  siteFields : list Field.t;
}.

End Theme.

Definition MARKDOWN_CONTENT_PREFIX : string := "markdown://".
Definition INDEX_PAGE_NAME : string := "index".
Definition ARTICLE_PAGE_NAME : string := "article".

Definition dateFormat_field : Field.t :=
  {| Field.name := "dateFormat";
     Field.label := Some "Date Format";
     (* the quotes around the link are left out *)
     Field.tip := Some "See <a href=https://momentjs.com/docs/#/displaying/>moment.js document.</a>";
     Field.placeholder := Some "Default value is YYYY-MM-DD HH:mm.";
     Field.defaultValue := Some (JS.VStr "YYYY-MM-DD HH:mm");
     Field.rules := None;
     Field.inputType := None;
     Field.options := None |}.

Definition PREDEFINED_FIELDS : gmap string (list Field.t) :=
  {[ ARTICLE_PAGE_NAME := [dateFormat_field] ]}.

Definition url_field (name : string) : Field.t :=
  {| Field.name := "url";
     Field.label := Some "Url";
     Field.tip := None;
     Field.placeholder := Some ("Default value is " +:+ name);
     Field.defaultValue := None;
     Field.rules := None;
     Field.inputType := None;
     Field.options := None |}.

Module Page.

(** lodash [compact]: the entries that are not falsy. *)
Definition compact (l : list (option Field.t)) : list Field.t :=
  omap id l.

(** The [fields] initialiser of the class. *)
Definition fields (name : string) (themeConfig : Theme.t) : list Field.t :=
  compact
    ((if decide (name = INDEX_PAGE_NAME) then None else Some (url_field name))
     :: (Some <$> default [] (PREDEFINED_FIELDS !! name))
     ++ (Some <$> default [] (Theme.pages themeConfig !! name))).

Record t := mk {
  name : string;
  themeConfig : Theme.t;
  fieldVars : gmap string JS.value;
}.

Definition getMarkdownFieldNames (field : list Field.t) : list string :=
  Field.name <$>
    filter (λ f, Field.inputType f = Some Field.markdown) field.

Definition markdownFieldNames (p : t) : list string :=
  getMarkdownFieldNames (fields (name p) (themeConfig p)).

(** [content.replace(...)]: a [TypeError] when [content] has no [replace]
    method, that is, when it is not a string. *)
Definition trimMarkdownPrefix (content : JS.value) : result JS.value :=
  match content with
  | JS.VStr s => Ok (JS.VStr (JS.replace_anchored MARKDOWN_CONTENT_PREFIX s))
  | _ => Err (TypeError "content.replace is not a function")
  end.

Definition setValues (p : t) (values : JS.value) : result t :=
  mapped ← JS.mapValues values (λ value key,
    if bool_decide (key ∈ markdownFieldNames p) && JS.isString value
    then trimMarkdownPrefix value
    else Ok value);
  mret {| name := name p; themeConfig := themeConfig p;
          fieldVars := JS.Object_assign (fieldVars p) mapped |}.

(** [isString(value)] is the match on [VStr]; the template literal prefixes
    the string; [toRaw] gives plain data back as it is. *)
Definition outputValues (p : t) : gmap string JS.value :=
  map_imap (λ key value,
    Some (if bool_decide (key ∈ markdownFieldNames p)
          then match value with
               | JS.VStr s => JS.VStr (MARKDOWN_CONTENT_PREFIX +:+ s)
               | _ => value
               end
          else value)) (fieldVars p).

(** The constructor: every declared field starts at [null], then the
    persisted values are merged in. *)
Definition new (name : string) (fieldVars : JS.value) (themeConfig : Theme.t)
    : result t :=
  let init :=
    foldl (λ result filed, <[Field.name filed := JS.VNull]> result)
          (∅ : gmap string JS.value) (fields name themeConfig) in
  setValues {| name := name; themeConfig := themeConfig; fieldVars := init |}
            fieldVars.

End Page.

(** ** The article service *)

Module Article.

(** Modelled from the spec: the [Article] type ([../model/Article] is not
    among the sources): a note-backed unit with its [noteId], its [url] and
    its publication state.  The cached note body, the images and the
    attachments play no role in url validation and are left out. *)
Record t := mk {
  noteId : string;
  url : string;
  tags : list string;
  content : option string;
  published : bool;
  updatedAt : Z;
}.

End Article.

Module ArticleService.

(** [a !== v] for a string [a] and any value [v]. *)
Definition strict_ne (a : string) (v : JS.value) : bool :=
  match v with
  | JS.VStr b => negb (String.eqb a b)
  | _ => true
  end.

(** The [for ... of] loop with its early [return false]. *)
Fixpoint isValidUrl (articles : list Article.t) (newUrl : string)
    (noteId : JS.value) : bool :=
  match articles with
  | [] => true
  | article :: rest =>
      if strict_ne (Article.noteId article) noteId
         && String.eqb (Article.url article) newUrl
      then false
      else isValidUrl rest newUrl noteId
  end.

(** The [while] loop of [getValidUrl], run for at most [fuel] tests of the
    condition; [url] and [index] are the loop's variables. *)
Fixpoint getValidUrl_loop (fuel : nat) (articles : list Article.t)
    (baseUrl url : string) (index : nat) : option string :=
  match fuel with
  | O => None
  | S fuel =>
      if isValidUrl articles url JS.VUndefined
      then Some url
      else getValidUrl_loop fuel articles baseUrl
             (baseUrl +:+ "-" +:+ pretty index) (S index)
  end.

(** [getValidUrl]: the loop tests at most one candidate more than there are
    articles ([getValidUrl_loop_fuel] shows more fuel changes nothing and
    [getValidUrl_returns] that this much is enough). *)
Definition getValidUrl (articles : list Article.t) (baseUrl : string)
    : option string :=
  getValidUrl_loop (S (length articles)) articles baseUrl baseUrl 1.

End ArticleService.

(** ** The site service *)

Module Site.

Inductive rss_mode := full | digest | none.

(** Modelled from the spec: the [custom] mapping of a site, from a theme
    name to the values of that theme's site fields (the [Site] declaration
    among the sources has no such field, [SiteService] reads and writes
    it). *)
Record t := mk {
  themeName : string;
  RSSMode : rss_mode;
  RSSLength : nat;
  generatedAt : option Z;
  custom : gmap string (gmap string JS.value);
}.

End Site.

Module SiteService.

(** The service's state: its three refs, and what the exception service has
    been asked to report (the error and the title of the report). *)
Record t := mk {
  site : option Site.t;
  themes : list Theme.t;
  themeConfig : option Theme.t;
  reported : list (exn * string);
}.

Definition reportError (error : exn) (title : string) (s : t) : t :=
  {| site := site s; themes := themes s; themeConfig := themeConfig s;
     reported := reported s ++ [(error, title)] |}.

Section with_repository.

(** [pluginDataRepository.getTheme]: fetching and parsing a theme may
    fail. *)
Variable getTheme : string → result Theme.t.

(** The name of the default theme, declared with the [Theme] type. *)
Variable DEFAULT_THEME_NAME : string.

(** [if (!site.custom[themeName]) site.custom[themeName] = {}] *)
Definition ensure_custom (themeName : string) (site_value : Site.t) : Site.t :=
  match Site.custom site_value !! themeName with
  | Some _ => site_value
  | None =>
      {| Site.themeName := Site.themeName site_value;
         Site.RSSMode := Site.RSSMode site_value;
         Site.RSSLength := Site.RSSLength site_value;
         Site.generatedAt := Site.generatedAt site_value;
         Site.custom := <[themeName := ∅]> (Site.custom site_value) |}
  end.

Definition loadTheme (themeName : string) (s : t) : result t :=
  match site s with
  | None => Err (Error "site is not ready when load theme")
  | Some site_value =>
      match getTheme themeName with
      | Ok theme =>
          (* the try block ran to its end *)
          Ok {| site := Some (ensure_custom themeName site_value);
                themes := themes s;
                themeConfig := Some theme;
                reported := reported s |}
      | Err error =>
          (* the catch block *)
          fallback ← match themeConfig s with
                     | Some previous => Ok previous
                     | None => getTheme DEFAULT_THEME_NAME
                     end;
          Ok (reportError error "Fail to load theme"
                {| site := site s; themes := themes s;
                   themeConfig := Some fallback; reported := reported s |})
      end
  end.

End with_repository.

End SiteService.

(** ** The git worker *)

Module WorkerGit.

(** The arguments of the worker, with the fields its functions destructure
    (the declarations in [./type] are not among the sources).  [branch] may
    be left undefined. *)
Record GitInfo := {
  dir : string;
  gitdir : string;
  url : string;
  remote : string;
}.

Record GithubInfo := {
  userName : string;
  token : string;
  branch : option string;
  email : string;
}.

(** The calls the worker awaits, with the arguments it passes.  [onAuth] is
    given by the user name and password it returns; [fs], [http] and the
    [onMessage] and [onProgress] observers are the same in every call and
    are left out. *)
Inductive call :=
  | EmptyDir (path : string)
  | Clone (dir gitdir url remote : string) (depth : nat) (noCheckout : bool)
          (username password : string)
  | ListBranches (dir gitdir : string)
  | Branch (dir gitdir ref : string)
  | SetConfig (gitdir path value : string)
  | SetTimeout (ms : nat)
  | Add (gitdir dir filepath : string)
  | ListFiles (gitdir dir : string) (ref : option string)
  | Remove (dir gitdir filepath : string)
  | Commit (gitdir message : string) (ref : option string)
  | Push (gitdir dir : string) (ref remoteRef : option string)
         (remote url username password : string).

(** What a call resolves to. *)
Definition ret (c : call) : Type :=
  match c with
  | ListBranches _ _ | ListFiles _ _ _ => list string
  | _ => unit
  end.

(** An async function of the worker: it returns, or awaits a call and goes
    on with what the call resolved to. *)
Inductive prog (A : Type) : Type :=
  | Ret (a : A)
  | Await (c : call) (k : ret c → prog A).
Arguments Ret {A} a.
Arguments Await {A} c k.

Fixpoint prog_mbind {A B} (f : A → prog B) (p : prog A) : prog B :=
  match p with
  | Ret a => f a
  | Await c k => Await c (λ r, prog_mbind f (k r))
  end.

#[global] Instance prog_ret : MRet prog := λ A a, Ret a.
#[global] Instance prog_bind : MBind prog := λ A B f p, prog_mbind f p.

Definition await (c : call) : prog (ret c) := Await c Ret.

(** [for (const x of l) { await body(x) }] *)
Fixpoint for_of (l : list string) (body : string → prog unit) : prog unit :=
  match l with
  | [] => mret ()
  | x :: l => body x ;; for_of l body
  end.

(** [const { branch: branchName = 'master' } = githubInfo] *)
Definition branchName (githubInfo : GithubInfo) : string :=
  default "master" (branch githubInfo).

Definition initRepo (gitInfo : GitInfo) (githubInfo : GithubInfo) : prog unit :=
  let branchName := branchName githubInfo in
  await (EmptyDir (gitdir gitInfo)) ;;
  await (EmptyDir (dir gitInfo)) ;;
  await (Clone (dir gitInfo) (gitdir gitInfo) (url gitInfo) (remote gitInfo)
               1 true (userName githubInfo) (token githubInfo)) ;;
  branches ← await (ListBranches (dir gitInfo) (gitdir gitInfo));
  (if bool_decide (branchName ∈ branches) then mret ()
   else await (Branch (dir gitInfo) (gitdir gitInfo) branchName)) ;;
  await (SetConfig (gitdir gitInfo) "user.name" (userName githubInfo)) ;;
  await (SetConfig (gitdir gitInfo) "user.email" (email githubInfo)).

Definition publish (gitInfo : GitInfo) (githubInfo : GithubInfo)
    (files : list string) : prog unit :=
  await (SetTimeout 3000) ;;
  await (Add (gitdir gitInfo) (dir gitInfo) ".") ;;
  filesExisted ← await (ListFiles (gitdir gitInfo) (dir gitInfo)
                                  (branch githubInfo));
  let files_ :=
    (λ path, JS.replace_first (dir gitInfo +:+ "/") "" path) <$> files in
  let deletedFiles := JS.difference filesExisted files_ in
  for_of deletedFiles (λ deletedFile,
    await (Remove (dir gitInfo) (gitdir gitInfo) deletedFile)) ;;
  await (Commit (gitdir gitInfo) "test" (branch githubInfo)) ;;
  await (Push (gitdir gitInfo) (dir gitInfo)
              (branch githubInfo) (branch githubInfo)
              (remote gitInfo) (url gitInfo)
              (userName githubInfo) (token githubInfo)).

(** *** Executions *)

(** An execution against an environment that answers the calls: the calls
    issued, in order, then the outcome and the environment's final state.  A
    call that rejects ends the execution with its error. *)
Section run.
Context {St : Type} (handle : ∀ c : call, St → result (ret c) * St).

Fixpoint run {A} (p : prog A) (s : St) : list call * (result A * St) :=
  match p with
  | Ret a => ([], (Ok a, s))
  | Await c k =>
      match handle c s with
      | (Ok r, s') => let '(t, out) := run (k r) s' in (c :: t, out)
      | (Err e, s') => ([c], (Err e, s'))
      end
  end.

Definition trace {A} (p : prog A) (s : St) : list call := (run p s).1.
Definition outcome {A} (p : prog A) (s : St) : result A := (run p s).2.1.
Definition final {A} (p : prog A) (s : St) : St := (run p s).2.2.

End run.

(** The calls that go to git (isomorphic-git), as opposed to the timer and
    the file system. *)
Definition is_git_operation (c : call) : bool :=
  match c with
  | EmptyDir _ | SetTimeout _ => false
  | _ => true
  end.

(** The files a trace removes from the index. *)
Definition removed (t : list call) : list string :=
  omap (λ c, match c with Remove _ _ filepath => Some filepath | _ => None end) t.

(** *** The repository the calls act on

    The git operations as isomorphic-git documents them, on a state that
    keeps what the worker's calls read and write: the files of the working
    tree and of the index (paths relative to [dir]), the file listing of the
    commit each local branch points to, the current branch, the
    configuration, and the remotes by url.  Commits are represented by
    their file listing; contents and history are not. *)

Record Remote := {
  default_branch : string;
  remote_heads : gmap string (gset string);
  accepts : string → string → bool;
}.

Record World := {
  worktree : gset string;
  index : gset string;
  heads : gmap string (gset string);
  HEAD : string;
  config : gmap string string;
  network : gmap string Remote;
}.

Definition tree_of (r : Remote) (name : string) : gset string :=
  default ∅ (remote_heads r !! name).

Definition current_branch (ref : option string) (w : World) : string :=
  default (HEAD w) ref.

Definition handle_git (gitInfo : GitInfo) (c : call) (w : World)
    : result (ret c) * World :=
  match c return result (ret c) * World with
  | EmptyDir path =>
      let w1 :=
        if bool_decide (path = gitdir gitInfo)
        then {| worktree := worktree w; index := ∅; heads := ∅; HEAD := "";
                config := ∅; network := network w |}
        else w in
      let w2 :=
        if bool_decide (path = dir gitInfo)
        then {| worktree := ∅; index := index w1; heads := heads w1;
                HEAD := HEAD w1; config := config w1; network := network w1 |}
        else w1 in
      (Ok (), w2)
  | Clone _ _ url remote _ noCheckout username password =>
      match network w !! url with
      | None => (Err (Error "HttpError: not found"), w)
      | Some r =>
          if accepts r username password then
            let tree := tree_of r (default_branch r) in
            (Ok (),
             {| worktree := if noCheckout then worktree w else worktree w ∪ tree;
                index := if noCheckout then index w else index w ∪ tree;
                heads := <[default_branch r := tree]> (heads w);
                HEAD := default_branch r;
                config := <["remote." +:+ remote +:+ ".url" := url]> (config w);
                network := network w |})
          else (Err (Error "HttpError: 401 Unauthorized"), w)
      end
  | ListBranches _ _ => (Ok (elements (dom (heads w))), w)
  | Branch _ _ ref =>
      match heads w !! ref with
      | Some _ => (Err (Error "AlreadyExistsError"), w)
      | None =>
          (Ok (),
           {| worktree := worktree w; index := index w;
              heads := <[ref := default ∅ (heads w !! HEAD w)]> (heads w);
              HEAD := HEAD w; config := config w; network := network w |})
      end
  | SetConfig _ path value =>
      (Ok (),
       {| worktree := worktree w; index := index w; heads := heads w;
          HEAD := HEAD w; config := <[path := value]> (config w);
          network := network w |})
  | SetTimeout _ => (Ok (), w)
  | Add _ _ filepath =>
      if bool_decide (filepath = ".") then
        (Ok (),
         {| worktree := worktree w; index := index w ∪ worktree w;
            heads := heads w; HEAD := HEAD w; config := config w;
            network := network w |})
      else if bool_decide (filepath ∈ worktree w) then
        (Ok (),
         {| worktree := worktree w; index := index w ∪ {[filepath]};
            heads := heads w; HEAD := HEAD w; config := config w;
            network := network w |})
      else (Err (Error "NotFoundError"), w)
  | ListFiles _ _ ref =>
      match ref with
      | None => (Ok (elements (index w)), w)
      | Some name =>
          match heads w !! name with
          | Some tree => (Ok (elements tree), w)
          | None => (Err (Error "NotFoundError"), w)
          end
      end
  | Remove _ _ filepath =>
      (Ok (),
       {| worktree := worktree w; index := index w ∖ {[filepath]};
          heads := heads w; HEAD := HEAD w; config := config w;
          network := network w |})
  | Commit _ _ ref =>
      (Ok (),
       {| worktree := worktree w; index := index w;
          heads := <[current_branch ref w := index w]> (heads w);
          HEAD := HEAD w; config := config w; network := network w |})
  | Push _ _ ref remoteRef _ url username password =>
      match network w !! url, heads w !! current_branch ref w with
      | Some r, Some tree =>
          if accepts r username password then
            (Ok (),
             {| worktree := worktree w; index := index w; heads := heads w;
                HEAD := HEAD w; config := config w;
                network :=
                  <[url := {| default_branch := default_branch r;
                              remote_heads :=
                                <[default (current_branch ref w) remoteRef := tree]>
                                  (remote_heads r);
                              accepts := accepts r |}]> (network w) |})
          else (Err (Error "HttpError: 401 Unauthorized"), w)
      | None, _ => (Err (Error "HttpError: not found"), w)
      | _, None => (Err (Error "NotFoundError"), w)
      end
  end.

End WorkerGit.

(** ** Coercions of JavaScript values *)

Module JSCoerce.
Import JS.

(** [ToBoolean]: what [!v], [v || w] and [if (v)] test. *)
Definition truthy (v : value) : bool :=
  match v with
  | VUndefined | VNull => false
  | VBool b => b
  | VNum n => negb (n =? 0)%Z
  | VStr s => negb (String.eqb s "")
  | VArr _ | VObj _ => true
  end.

(** [ToString], as a template literal applies it: an array is its elements
    joined by commas, [null] and [undefined] elements being empty. *)
Fixpoint toString (v : value) : string :=
  match v with
  | VUndefined => "undefined"
  | VNull => "null"
  | VBool b => if b then "true" else "false"
  | VNum n => pretty n
  | VStr s => s
  | VArr l =>
      let element x :=
        match x with
        | VUndefined | VNull => ""
        | _ => toString x
        end in
      let fix join (l : list value) : string :=
        match l with
        | [] => ""
        | x :: l' =>
            match l' with
            | [] => element x
            | _ :: _ => element x +:+ "," +:+ join l'
            end
        end in
      join l
  | VObj _ => "[object Object]"
  end.

(** [v ?? w] takes [w] when [v] is [null] or [undefined]; a missing
    property reads as [undefined]. *)
Definition nullish (v : value) : bool :=
  match v with
  | VUndefined | VNull => true
  | _ => false
  end.

(** [object[key]] *)
Definition get (object : gmap string value) (key : string) : value :=
  default VUndefined (object !! key).

End JSCoerce.

(** ** The derived properties of a page ([Page.ts]) *)

Module PageComputed.

(** [this.name === ARTICLE_PAGE_NAME] *)
Definition isArticlePage (p : Page.t) : bool :=
  bool_decide (Page.name p = ARTICLE_PAGE_NAME).

(** The [url] computed property. *)
Definition url (p : Page.t) : string :=
  if decide (Page.name p = INDEX_PAGE_NAME) then "/"
  else
    let fieldVars_url := JSCoerce.get (Page.fieldVars p) "url" in
    "/" +:+ (if JSCoerce.truthy fieldVars_url
             then JSCoerce.toString fieldVars_url
             else Page.name p).

End PageComputed.

(** ** [driver/webview/components/FieldForm/useFieldForm.ts] *)

Module FieldForm.

(** The loop of [useFieldForm] on the form's fields and model:
    [model[name] = model[name] ?? defaultValue] for each field in turn.  A
    field without [defaultValue] has it [undefined]. *)
Definition useFieldForm (fields : list Field.t) (model : gmap string JS.value)
    : gmap string JS.value :=
  foldl (λ model f,
           let name := Field.name f in
           let defaultValue := default JS.VUndefined (Field.defaultValue f) in
           <[name := if JSCoerce.nullish (JSCoerce.get model name)
                     then defaultValue
                     else JSCoerce.get model name]> model)
        model fields.

End FieldForm.

(** ** The site form ([useSiteEdit]) *)

Module SiteEdit.

(** [Boolean(themeConfig.value?.siteFields?.length)] *)
Definition hasThemeFields (themeConfig : option Theme.t) : bool :=
  match themeConfig with
  | Some theme => negb (length (Theme.siteFields theme) =? 0)
  | None => false
  end.

Definition customFields (themeConfig : option Theme.t) : list Field.t :=
  match themeConfig with
  | Some theme =>
      if String.eqb (Theme.name theme) "" then [] else Theme.siteFields theme
  | None => []
  end.

(** [field.label || field.name] *)
Definition label_or_name (field : Field.t) : string :=
  match Field.label field with
  | Some label => if String.eqb label "" then Field.name field else label
  | None => Field.name field
  end.

(** The callback of [field.rules.map]: a required rule gets a message when
    it has none. *)
Definition with_message (field : Field.t) (rule : gmap string JS.value)
    : gmap string JS.value :=
  if JSCoerce.truthy (JSCoerce.get rule "required")
  then <["message" :=
           if JSCoerce.truthy (JSCoerce.get rule "message")
           then JSCoerce.get rule "message"
           else JS.VStr (label_or_name field +:+ " is Required")]> rule
  else rule.

Definition customFieldRules (themeConfig : option Theme.t)
    : gmap string (list (gmap string JS.value)) :=
  match themeConfig with
  | None => ∅
  | Some theme =>
      let themeName := Theme.name theme in
      if String.eqb themeName "" then ∅
      else
        foldl (λ result field,
                 match Field.rules field with
                 | Some rules =>
                     <["custom." +:+ themeName +:+ "." +:+ Field.name field :=
                         with_message field <$> rules]> result
                 | None => result
                 end)
              ∅ (Theme.siteFields theme)
  end.

End SiteEdit.

(** ** The stateful operations of the article service

    The articles are objects shared by the collection and by the selection:
    the store keeps them under references, and the two arrays hold
    references.  [saved] lists what [pluginDataRepository.saveArticles] has
    been called with, oldest first. *)

Module Lodash.

(** [pull(array, ...values)]: every element equal to one of [values] is
    removed. *)
Definition pull (array values : list nat) : list nat :=
  filter (λ x, x ∉ values) array.

(** [uniq]: the first occurrence of each element, in order. *)
Fixpoint uniq_from {A} `{EqDecision A} (seen l : list A) : list A :=
  match l with
  | [] => []
  | x :: l =>
      if decide (x ∈ seen) then uniq_from seen l
      else x :: uniq_from (x :: seen) l
  end.

Definition uniq {A} `{EqDecision A} (l : list A) : list A := uniq_from [] l.

End Lodash.

Module ArticleStore.

Inductive Status := published | unpublished.

Record t := mk {
  heap : gmap nat Article.t;
  articles : list nat;
  selectedArticles : list nat;
  saved : list (list Article.t);
}.

(** The articles of the collection, in order. *)
Definition collection (st : t) : list Article.t :=
  omap (λ r, heap st !! r) (articles st).

(** [Partial<Article>]: [None] for a property that is not given. *)
Record Partial := {
  noteId : option string;
  url : option string;
  tags : option (list string);
  content : option (option string);
  published_ : option bool;
  updatedAt : option Z;
}.

(** [Object.assign(article, partial)] *)
Definition assign (article : Article.t) (partial : Partial) : Article.t :=
  {| Article.noteId := default (Article.noteId article) (noteId partial);
     Article.url := default (Article.url article) (url partial);
     Article.tags := default (Article.tags article) (tags partial);
     Article.content := default (Article.content article) (content partial);
     Article.published := default (Article.published article) (published_ partial);
     Article.updatedAt := default (Article.updatedAt article) (updatedAt partial) |}.

(** [filter(this.articles, { published: b })] *)
Definition with_published (b : bool) (st : t) : list nat :=
  filter (λ r, Article.published <$> heap st !! r = Some b) (articles st).

Definition publishedArticles (st : t) : list nat := with_published true st.
Definition unpublishedArticles (st : t) : list nat := with_published false st.

(** [uniq(map(this.publishedArticles.value, 'tags').flat())] *)
Definition allTags (st : t) : list string :=
  Lodash.uniq
    (mjoin (omap (λ r, Article.tags <$> heap st !! r) (publishedArticles st))).

Definition saveArticles (st : t) : t :=
  {| heap := heap st; articles := articles st;
     selectedArticles := selectedArticles st;
     saved := saved st ++ [collection st] |}.

Definition removeArticles (st : t) : t :=
  saveArticles
    {| heap := heap st;
       articles := Lodash.pull (articles st) (selectedArticles st);
       selectedArticles := [];
       saved := saved st |}.

Definition set_published (b : bool) (article : Article.t) : Article.t :=
  {| Article.noteId := Article.noteId article;
     Article.url := Article.url article;
     Article.tags := Article.tags article;
     Article.content := Article.content article;
     Article.published := b;
     Article.updatedAt := Article.updatedAt article |}.

(** One turn of the loop of [togglePublished]: the store and the local
    array [articles] of the toggled ones. *)
Definition toggle_step (status : Status)
    (acc : gmap nat Article.t * list nat) (r : nat)
    : gmap nat Article.t * list nat :=
  match acc.1 !! r with
  | Some article =>
      if match status with
         | published => negb (Article.published article)
         | unpublished => Article.published article
         end
      then (<[r := set_published
                     (match status with published => true | unpublished => false end)
                     article]> acc.1,
            acc.2 ++ [r])
      else acc
  | None => acc
  end.

Definition togglePublished (status : Status) (st : t) : t :=
  let toggled := foldl (toggle_step status) (heap st, []) (selectedArticles st) in
  saveArticles
    {| heap := toggled.1;
       articles := articles st;
       selectedArticles := Lodash.pull (selectedArticles st) toggled.2;
       saved := saved st |}.

Definition toggleArticleSelected (article : nat) (st : t) : t :=
  {| heap := heap st; articles := articles st;
     selectedArticles :=
       if bool_decide (article ∈ selectedArticles st)
       then Lodash.pull (selectedArticles st) [article]
       else selectedArticles st ++ [article];
     saved := saved st |}.

Definition selectAll (status : Status) (st : t) : t :=
  let articles_ :=
    match status with
    | published => publishedArticles st
    | unpublished => unpublishedArticles st
    end in
  {| heap := heap st; articles := articles st;
     selectedArticles := Lodash.uniq (selectedArticles st ++ articles_);
     saved := saved st |}.

(** [findIndex(this.articles, { noteId })]: the first article with the
    noteId, if any. *)
Definition findIndex (st : t) (noteId : string) : option (nat * nat) :=
  list_find (λ r, Article.noteId <$> heap st !! r = Some noteId) (articles st).

Definition saveArticle (article : Partial) (st : t) : result t :=
  match noteId article with
  | None => Err (Error "no article noteId when saving")
  | Some id =>
      if String.eqb id "" then Err (Error "no article noteId when saving")
      else
        match findIndex st id with
        | None => Err (Error "no article when saving")
        | Some (_, r) =>
            Ok (saveArticles
                  {| heap := alter (λ a, assign a article) r (heap st);
                     articles := articles st;
                     selectedArticles := selectedArticles st;
                     saved := saved st |})
        end
  end.

(** The urls are validated against the collection. *)
Definition isValidUrl (st : t) (newUrl : string) (noteId : JS.value) : bool :=
  ArticleService.isValidUrl (collection st) newUrl noteId.

End ArticleStore.

(** ** The start of the site service ([SiteService.init]) *)

Module SiteInit.

(** What [pluginDataRepository.getSite] resolves to: the saved properties
    of the site, [None] for a property that was not saved. *)
Record SavedSite := {
  themeName : option string;
  RSSMode : option Site.rss_mode;
  RSSLength : option nat;
  generatedAt : option (option Z);
  custom : option (gmap string (gmap string JS.value));
}.

(** [{ ...DEFAULT_SITE, ...saved }]; nothing is spread from [null]. *)
Definition spread (DEFAULT_SITE : Site.t) (saved : option SavedSite) : Site.t :=
  match saved with
  | None => DEFAULT_SITE
  | Some saved =>
      {| Site.themeName := default (Site.themeName DEFAULT_SITE) (themeName saved);
         Site.RSSMode := default (Site.RSSMode DEFAULT_SITE) (RSSMode saved);
         Site.RSSLength := default (Site.RSSLength DEFAULT_SITE) (RSSLength saved);
         Site.generatedAt :=
           default (Site.generatedAt DEFAULT_SITE) (generatedAt saved);
         Site.custom := default (Site.custom DEFAULT_SITE) (custom saved) |}
  end.

Section with_repository.

Variable getTheme : string → result Theme.t.
Variable DEFAULT_THEME_NAME : string.

(** [pluginDataRepository.getThemes] and [getSite], and the default site
    declared with the [Site] type. *)
Variable getThemes : result (list Theme.t).
Variable getSite : result (option SavedSite).
Variable DEFAULT_SITE : Site.t.

Definition init (s : SiteService.t) : result SiteService.t :=
  themes ← getThemes;
  saved ← getSite;
  let site_value := spread DEFAULT_SITE saved in
  let themeName := Site.themeName site_value in
  SiteService.loadTheme getTheme DEFAULT_THEME_NAME themeName
    {| SiteService.site := Some (SiteService.ensure_custom themeName site_value);
       SiteService.themes := themes;
       SiteService.themeConfig := SiteService.themeConfig s;
       SiteService.reported := SiteService.reported s |}.

End with_repository.

End SiteInit.

(** ** Paginated reading of the note store ([joplinPlugin.ts]) *)

Module Joplin.

Section fetchAllData.
Context {T : Type}.

(** [fetchData(path, { ...query, page })] for the path and query of the
    call, by page number: the items of the page and its [has_more], or a
    rejection. *)
Variable fetchData : nat → result (list T * bool).

(** The [while (hasMore)] loop, run for at most [fuel] turns; it is entered
    with [hasMore] true.  [None] when the fuel runs out. *)
Fixpoint fetchAllData_loop (fuel : nat) (result_ : list T) (page : nat)
    : option (result (list T)) :=
  match fuel with
  | O => None
  | S fuel =>
      match fetchData page with
      | Err e => Some (Err e)
      | Ok (items, has_more) =>
          let result_ := result_ ++ items in
          if has_more then fetchAllData_loop fuel result_ (S page)
          else Some (Ok result_)
      end
  end.

Definition fetchAllData (fuel : nat) : option (result (list T)) :=
  fetchAllData_loop fuel [] 1.

End fetchAllData.

End Joplin.

(** * Notions used in the statements *)

Section page_notions.
Import JS.

(** What [setValues] stores for a supplied value: the string without its
    markdown prefix under a markdown-typed key, the value itself otherwise. *)
Definition decoded (md : list string) (key : string) (v : value) : value :=
  match v with
  | VStr s =>
      if bool_decide (key ∈ md)
      then VStr (replace_anchored MARKDOWN_CONTENT_PREFIX s)
      else v
  | _ => v
  end.


(** A theme that declares a field named url for the index page. *)
Definition theme_declaring_url : Theme.t :=
  {| Theme.name := "custom";
     Theme.pages := {[ INDEX_PAGE_NAME := [url_field "home"] ]};
     Theme.siteFields := [] |}.

End page_notions.

Section article_notions.
Import JS ArticleService.

(** The url tested at the [k]-th evaluation of the loop condition. *)
Definition candidate (baseUrl : string) (k : nat) : string :=
  match k with
  | O => baseUrl
  | S _ => baseUrl +:+ "-" +:+ pretty k
  end.

(** Storing an url: a new article of the collection takes it. *)
Definition store (articles : list Article.t) (noteId url : string)
    : list Article.t :=
  articles ++ [Article.mk noteId url [] None false 0].

(** One [getValidUrl] call per new note, each result stored before the next
    call. *)
Fixpoint assign_urls (noteIds : list string) (articles : list Article.t)
    (baseUrl : string) : option (list string) :=
  match noteIds with
  | [] => Some []
  | noteId :: rest =>
      url ← getValidUrl articles baseUrl;
      urls ← assign_urls rest (store articles noteId url) baseUrl;
      Some (url :: urls)
  end.

(** [n] calls against a collection that is left as it is. *)
Definition repeated_calls (n : nat) (articles : list Article.t)
    (baseUrl : string) : list (option string) :=
  (λ _, getValidUrl articles baseUrl) <$> seq 0 n.

(** A collection of one article whose url is the base. *)
Definition one_post : list Article.t :=
  [Article.mk "note-1" "post" [] None true 0].

End article_notions.

Section site_notions.
Import SiteService.

(** A repository in which no theme loads, and one that has the default
    theme only. *)
Definition no_theme_loads : string → result Theme.t :=
  λ name, Err (Error ("cannot load theme " +:+ name)).

Definition default_theme : Theme.t :=
  {| Theme.name := "default"; Theme.pages := ∅; Theme.siteFields := [] |}.

Definition only_default_loads : string → result Theme.t :=
  λ name, if String.eqb name "default" then Ok default_theme
          else Err (Error ("cannot load theme " +:+ name)).

Definition fresh_service : SiteService.t :=
  {| site := Some (Site.mk "default" Site.none 10 None {[ "default" := ∅ ]});
     themes := []; themeConfig := None; reported := [] |}.

End site_notions.

Section worker_notions.
Import JS WorkerGit.

(** Every call a program can issue satisfies [P]. *)
Fixpoint all_calls {A} (P : call → Prop) (p : prog A) : Prop :=
  match p with
  | Ret _ => True
  | Await c k => P c ∧ ∀ r, all_calls P (k r)
  end.

(** [path.replace(dir + '/', '')] *)
Definition relative_to (dir path : string) : string :=
  replace_first (dir +:+ "/") "" path.

(** The worker may publish to branch [b]: the branch exists, and the index
    holds nothing but files of the branch's last commit. *)
Definition ready (b : string) (w : World) : Prop :=
  ∃ E, heads w !! b = Some E ∧ index w ⊆ E.

Definition set_index (i : gset string) (w : World) : World :=
  {| worktree := worktree w; index := i; heads := heads w; HEAD := HEAD w;
     config := config w; network := network w |}.

(** The calls of [initRepo] when [listBranches] answers [branches]. *)
Definition initRepo_calls (g : GitInfo) (h : GithubInfo)
    (branches : list string) : list call :=
  [EmptyDir (gitdir g); EmptyDir (dir g);
   Clone (dir g) (gitdir g) (url g) (remote g) 1 true (userName h) (token h);
   ListBranches (dir g) (gitdir g)]
  ++ (if bool_decide (branchName h ∈ branches) then []
      else [Branch (dir g) (gitdir g) (branchName h)])
  ++ [SetConfig (gitdir g) "user.name" (userName h);
      SetConfig (gitdir g) "user.email" (email h)].

(** The repository [initRepo] leaves behind after cloning the remote [r]. *)
Definition initialised (g : GitInfo) (h : GithubInfo) (r : Remote)
    (net : gmap string Remote) : World :=
  let tree := tree_of r (default_branch r) in
  {| worktree := ∅;
     index := ∅;
     heads := <[branchName h := tree]> {[ default_branch r := tree ]};
     HEAD := default_branch r;
     config := <["user.email" := email h]>
                 (<["user.name" := userName h]>
                    {[ "remote." +:+ remote g +:+ ".url" := url g ]});
     network := net |}.

(** A remote whose default branch is [main], and a call of the worker with
    no branch name. *)
Definition remote_main : Remote :=
  {| default_branch := "main";
     remote_heads := {[ "main" := {[ "index.html" ]} ]};
     accepts := λ username password, String.eqb password "secret" |}.

Definition example_git : GitInfo :=
  {| dir := "out"; gitdir := "git";
     url := "https://example.org/site.git"; remote := "origin" |}.

Definition no_branch_given : GithubInfo :=
  {| userName := "ann"; token := "secret"; branch := None;
     email := "ann@example.org" |}.

Definition blank : World :=
  {| worktree := ∅; index := ∅; heads := ∅; HEAD := ""; config := ∅;
     network := {[ "https://example.org/site.git" := remote_main ]} |}.


Definition published_abc : World :=
  {| worktree := {[ "a"; "c"; "d" ]};
     index := {[ "a"; "b"; "c" ]};
     heads := {[ "gh-pages" := {[ "a"; "b"; "c" ]} ]};
     HEAD := "gh-pages"; config := ∅;
     network := {[ "https://example.org/site.git" := remote_main ]} |}.

End worker_notions.

Section form_notions.
Import JS JSCoerce.

(** The default values of the fields named [key], in the order of the
    fields. *)
Definition defaults_for (key : string) (fields : list Field.t) : list value :=
  (λ f, default VUndefined (Field.defaultValue f))
    <$> filter (λ f, Field.name f = key) fields.

(** A value after the defaults [ds] were offered to it in turn. *)
Definition settle (v : value) (ds : list value) : value :=
  foldl (λ v d, if nullish v then d else v) v ds.

Definition markdown_field (name : string) : Field.t :=
  {| Field.name := name; Field.label := None; Field.tip := None;
     Field.placeholder := None; Field.defaultValue := Some (VStr "");
     Field.rules := Some [ {[ "required" := VBool true ]} ];
     Field.inputType := Some Field.markdown; Field.options := None |}.

Definition blog_theme : Theme.t :=
  {| Theme.name := "blog";
     Theme.pages := {[ "about" := [markdown_field "body"] ]};
     Theme.siteFields := [markdown_field "footer"] |}.

(** One turn of the [reduce] of [customFieldRules]. *)
Definition rules_step (themeName : string)
    (result : gmap string (list (gmap string value))) (field : Field.t)
    : gmap string (list (gmap string value)) :=
  match Field.rules field with
  | Some rules =>
      <["custom." +:+ themeName +:+ "." +:+ Field.name field :=
          SiteEdit.with_message field <$> rules]> result
  | None => result
  end.

End form_notions.

Section store_notions.
Import ArticleStore.

(** Every reference of the collection and of the selection is to an
    article of the store. *)
Definition store_wf (st : ArticleStore.t) : Prop :=
  ∀ r, r ∈ articles st ∨ r ∈ selectedArticles st → is_Some (heap st !! r).

Definition status_bool (status : Status) : bool :=
  match status with published => true | unpublished => false end.

(** A store of three articles, the second one selected. *)
Definition three_articles : ArticleStore.t :=
  {| heap := {[ 0 := Article.mk "note-1" "post" ["a"; "b"] None true 0;
                1 := Article.mk "note-2" "post-1" ["b"; "c"] None false 0;
                2 := Article.mk "note-3" "about" ["c"] None true 0 ]};
     articles := [0; 1; 2];
     selectedArticles := [1];
     saved := [] |}.

End store_notions.

Section site_more_notions.
Import SiteService.

(** The calls [loadTheme(name)] for the names of a list, one after the
    other, as long as they return. *)
Fixpoint loadTheme_seq (getTheme : string → result Theme.t)
    (DEFAULT_THEME_NAME : string) (names : list string) (s : SiteService.t)
    : result SiteService.t :=
  match names with
  | [] => Ok s
  | name :: names =>
      s' ← loadTheme getTheme DEFAULT_THEME_NAME name s;
      loadTheme_seq getTheme DEFAULT_THEME_NAME names s'
  end.

(** What the site keeps for the themes. *)
Definition custom_of (s : SiteService.t) : gmap string (gmap string JS.value) :=
  match site s with
  | Some site_value => Site.custom site_value
  | None => ∅
  end.

End site_more_notions.

Section init_notions.
Import SiteInit.

(** The service before [init], a default site, and a saved site that names
    a theme and a feed length. *)
Definition new_service : SiteService.t :=
  {| SiteService.site := None; SiteService.themes := [];
     SiteService.themeConfig := None; SiteService.reported := [] |}.

Definition plain_default_site : Site.t := Site.mk "default" Site.none 10 None ∅.

Definition saved_fancy : SavedSite :=
  {| themeName := Some "fancy"; RSSMode := None; RSSLength := Some 20;
     generatedAt := None; custom := None |}.

End init_notions.

Section fetch_notions.

(** A note store of two pages, one whose second page is refused, and one
    that always announces more. *)
Definition two_pages : nat → result (list string * bool) :=
  λ page, match page with
          | 1 => Ok (["a"; "b"], true)
          | 2 => Ok (["c"], false)
          | _ => Err (Error "no such page")
          end.

Definition second_page_refused : nat → result (list string * bool) :=
  λ page, match page with
          | 1 => Ok (["a"; "b"], true)
          | _ => Err (Error "refused")
          end.

Definition always_more : nat → result (list nat * bool) :=
  λ page, Ok ([page], true).

End fetch_notions.

Section publish_notions.
Import JS WorkerGit.




End publish_notions.

(** * Properties *)

(** ** Strings and lodash helpers *)

Section js_facts.
Import JS.

Lemma strip_prefix_app p s : strip_prefix p (p +:+ s) = Some s.
Proof.
  induction p as [|a p IH]; simpl; [by destruct s|].
  by rewrite Ascii.eqb_refl.
Qed.


Lemma replace_anchored_app p s : replace_anchored p (p +:+ s) = s.
Proof. unfold replace_anchored. by rewrite strip_prefix_app. Qed.



Lemma mapM_result_Ok {A B} (f : A → result B) (g : A → B) (l : list A) :
  (∀ x, x ∈ l → f x = Ok (g x)) → mapM f l = Ok (g <$> l).
Proof.
  induction l as [|x l IH]; intros Hf; [done|].
  simpl. rewrite (Hf x) by left. simpl.
  rewrite IH; [done|]. intros y Hy. apply Hf. by right.
Qed.

Lemma mapValues_Ok object iteratee (g : string → value → value) :
  (∀ key v, own_props object !! key = Some v → iteratee v key = Ok (g key v)) →
  mapValues object iteratee
  = Ok (map_imap (λ key v, Some (g key v)) (own_props object)).
Proof.
  intros Hf. unfold mapValues.
  rewrite (mapM_result_Ok _ (λ kv, (kv.1, g kv.1 kv.2))).
  - simpl. f_equal. apply map_eq. intros i.
    rewrite map_lookup_imap. apply option_eq. intros y.
    rewrite <-elem_of_list_to_map.
    + rewrite list_elem_of_fmap. split.
      * intros [[k v] [[= -> ->] Hin]]. apply elem_of_map_to_list in Hin.
        by rewrite Hin.
      * destruct (own_props object !! i) as [v|] eqn:E; [|done].
        intros [= <-]. exists (i, v). split; [done|].
        by apply elem_of_map_to_list.
    + rewrite <-list_fmap_compose.
      apply (NoDup_fst_map_to_list (own_props object)).
  - intros [k v] Hin. apply elem_of_map_to_list in Hin. simpl.
    by rewrite (Hf _ _ Hin).
Qed.


End js_facts.

(** ** The page model *)

Section page_facts.
Import JS.

Lemma setValues_Ok p values :
  Page.setValues p values
  = Ok {| Page.name := Page.name p;
          Page.themeConfig := Page.themeConfig p;
          Page.fieldVars :=
            map_imap (λ key v, Some (decoded (Page.markdownFieldNames p) key v))
                     (own_props values) ∪ Page.fieldVars p |}.
Proof.
  unfold Page.setValues.
  rewrite (mapValues_Ok _ _ (decoded (Page.markdownFieldNames p))); [done|].
  intros key v _. unfold decoded.
  destruct v; simpl; rewrite ?andb_false_r; try done.
  by destruct (bool_decide _).
Qed.


Lemma setValues_same_schema p values p' :
  Page.setValues p values = Ok p' →
  Page.name p' = Page.name p ∧ Page.themeConfig p' = Page.themeConfig p.
Proof. rewrite setValues_Ok. by intros [= <-]. Qed.




Lemma init_fieldVars_lookup (fs : list Field.t) (m : gmap string value) key :
  foldl (λ result filed, <[Field.name filed := VNull]> result) m fs !! key
  = if bool_decide (key ∈ Field.name <$> fs) then Some VNull else m !! key.
Proof.
  revert m; induction fs as [|f fs IH]; intros m; simpl; [done|].
  rewrite IH.
  destruct (decide (key ∈ Field.name <$> fs)) as [Hin|Hin].
  - rewrite !bool_decide_eq_true_2; [done| by right | done].
  - rewrite (bool_decide_eq_false_2 _ Hin).
    destruct (decide (key = Field.name f)) as [->|Hne].
    + rewrite bool_decide_eq_true_2 by left. apply lookup_insert_eq.
    + rewrite bool_decide_eq_false_2 by (by apply not_elem_of_cons).
      by apply lookup_insert_ne.
Qed.

Lemma fields_eq name themeConfig :
  Page.fields name themeConfig
  = (if decide (name = INDEX_PAGE_NAME) then [] else [url_field name])
    ++ default [] (PREDEFINED_FIELDS !! name)
    ++ default [] (Theme.pages themeConfig !! name).
Proof.
  unfold Page.fields, Page.compact.
  assert (Hsome : ∀ l : list Field.t, omap id (Some <$> l) = l).
  { induction l as [|x l IH]; [done|]. simpl. f_equal. exact IH. }
  rewrite <-fmap_app. case_decide.
  - exact (Hsome (_ ++ _)).
  - exact (Hsome (url_field name :: _ ++ _)).
Qed.

Lemma new_page_Ok name persistedFieldVars themeConfig :
  ∃ p, Page.new name persistedFieldVars themeConfig = Ok p
       ∧ ∀ key,
           Page.fieldVars p !! key
           = match own_props persistedFieldVars !! key with
             | Some v =>
                 Some (decoded (Page.getMarkdownFieldNames
                                  (Page.fields name themeConfig)) key v)
             | None =>
                 if bool_decide (key ∈ Field.name <$> Page.fields name themeConfig)
                 then Some VNull else None
             end.
Proof.
  unfold Page.new. eexists. split; [apply setValues_Ok|].
  intros key. simpl. rewrite lookup_union, map_lookup_imap.
  rewrite init_fieldVars_lookup, lookup_empty.
  destruct (own_props persistedFieldVars !! key) as [v|]; simpl.
  - by destruct (bool_decide _).
  - by destruct (bool_decide _).
Qed.

End page_facts.

Section page_claims.
Import JS.






End page_claims.

(** ** The article collection *)

Section article_facts.
Import JS ArticleService.

Lemma string_app_nil_r (s : string) : s +:+ "" = s.
Proof.
  induction s as [|c s IH]; [done|].
  change (String c (s +:+ "") = String c s). by rewrite IH.
Qed.

Lemma candidate_inj baseUrl : Inj (=) (=) (candidate baseUrl).
Proof.
  assert (Hne : ∀ t, baseUrl +:+ "-" +:+ t ≠ baseUrl).
  { intros t H. rewrite <-(string_app_nil_r baseUrl) in H at 2.
    by apply (inj (String.app baseUrl)) in H. }
  intros [|i] [|j] H; simpl in H; [done| | |].
  - by destruct (Hne (pretty (S j))).
  - by destruct (Hne (pretty (S i))).
  - apply (inj (String.app baseUrl)), (inj (String.app "-")) in H.
    by apply (inj pretty) in H.
Qed.

Lemma candidate_prefix baseUrl k : ∃ suffix, candidate baseUrl k = baseUrl +:+ suffix.
Proof.
  destruct k; simpl; [|by eexists].
  exists "". by rewrite string_app_nil_r.
Qed.

Lemma strict_ne_true a v : strict_ne a v = true ↔ VStr a ≠ v.
Proof.
  destruct v; simpl; try (split; [done|by intros _]).
  rewrite negb_true_iff, String.eqb_neq. naive_solver.
Qed.

Lemma isValidUrl_false articles newUrl noteId :
  isValidUrl articles newUrl noteId = false
  ↔ ∃ a, a ∈ articles ∧ VStr (Article.noteId a) ≠ noteId
         ∧ Article.url a = newUrl.
Proof.
  induction articles as [|article rest IH]; simpl.
  - split; [done|]. intros (a & Ha & _). by apply elem_of_nil in Ha.
  - destruct (strict_ne _ _ && _) eqn:E.
    + split; [|done]. intros _. exists article.
      apply andb_true_iff in E as [E1 E2].
      apply strict_ne_true in E1. apply String.eqb_eq in E2.
      split; [left|done].
    + rewrite IH. split.
      * intros (a & Ha & Hne & Hu). exists a. split; [by right|done].
      * intros (a & Ha & Hne & Hu). exists a. split; [|done].
        apply elem_of_cons in Ha as [->|Ha]; [|done].
        apply strict_ne_true in Hne. apply String.eqb_eq in Hu.
        by rewrite Hne, Hu in E.
Qed.

Lemma isValidUrl_undefined articles url :
  isValidUrl articles url VUndefined = false ↔ url ∈ Article.url <$> articles.
Proof.
  rewrite isValidUrl_false, list_elem_of_fmap. split.
  - intros (a & Ha & _ & Hu). by exists a.
  - intros (a & Hu & Ha). by exists a.
Qed.

Lemma getValidUrl_loop_fuel fuel fuel' articles baseUrl url index u :
  getValidUrl_loop fuel articles baseUrl url index = Some u →
  fuel ≤ fuel' →
  getValidUrl_loop fuel' articles baseUrl url index = Some u.
Proof.
  revert fuel' url index.
  induction fuel as [|fuel IH]; intros fuel' url index; simpl; [done|].
  intros H Hle. destruct fuel' as [|fuel']; [lia|]. simpl.
  destruct (isValidUrl articles url VUndefined); [done|].
  apply IH; [done|lia].
Qed.

(** From the start of [getValidUrl] the loop tests [candidate 0],
    [candidate 1], ... in turn. *)
Lemma getValidUrl_loop_candidates fuel articles baseUrl k :
  getValidUrl_loop fuel articles baseUrl (candidate baseUrl k) (S k)
  = match fuel with
    | O => None
    | S fuel =>
        if isValidUrl articles (candidate baseUrl k) VUndefined
        then Some (candidate baseUrl k)
        else getValidUrl_loop fuel articles baseUrl
               (candidate baseUrl (S k)) (S (S k))
    end.
Proof. by destruct fuel. Qed.

Lemma getValidUrl_loop_Some fuel articles baseUrl k u :
  getValidUrl_loop fuel articles baseUrl (candidate baseUrl k) (S k) = Some u →
  ∃ j, k ≤ j ∧ u = candidate baseUrl j
       ∧ isValidUrl articles u VUndefined = true
       ∧ ∀ i, k ≤ i < j → candidate baseUrl i ∈ Article.url <$> articles.
Proof.
  revert k; induction fuel as [|fuel IH]; intros k;
    rewrite getValidUrl_loop_candidates; [done|].
  destruct (isValidUrl articles (candidate baseUrl k) VUndefined) eqn:E.
  - intros [= <-]. exists k. repeat split; [lia|done|]. intros i ?; lia.
  - intros (j & Hle & -> & Hv & Hin)%IH. exists j.
    repeat split; [lia|done|]. intros i Hi.
    destruct (decide (i = k)) as [->|]; [|apply Hin; lia].
    by apply isValidUrl_undefined.
Qed.

Lemma getValidUrl_loop_None fuel articles baseUrl k :
  getValidUrl_loop fuel articles baseUrl (candidate baseUrl k) (S k) = None →
  ∀ i, k ≤ i < k + fuel → candidate baseUrl i ∈ Article.url <$> articles.
Proof.
  revert k; induction fuel as [|fuel IH]; intros k;
    rewrite getValidUrl_loop_candidates; [intros _ i ?; lia|].
  destruct (isValidUrl articles (candidate baseUrl k) VUndefined) eqn:E;
    [done|].
  intros H i Hi. destruct (decide (i = k)) as [->|].
  - by apply isValidUrl_undefined.
  - apply (IH _ H). lia.
Qed.

(** The loop ends: among one more candidate than there are articles, one is
    the url of no article. *)
Lemma getValidUrl_returns articles baseUrl :
  ∃ u, getValidUrl articles baseUrl = Some u.
Proof.
  unfold getValidUrl.
  destruct (getValidUrl_loop _ _ _ _ _) as [u|] eqn:E; [by eexists|].
  exfalso.
  pose proof (getValidUrl_loop_None _ _ _ 0 E) as Hall.
  set (n := length articles) in *.
  assert (Hsub : candidate baseUrl <$> seq 0 (S n) ⊆+ Article.url <$> articles).
  { apply NoDup_submseteq.
    - apply (NoDup_fmap_2 _ (Inj0 := candidate_inj baseUrl)), NoDup_seq.
    - intros x (i & -> & Hi%elem_of_seq)%list_elem_of_fmap.
      apply Hall. lia. }
  apply submseteq_length in Hsub.
  rewrite !length_fmap, length_seq in Hsub. lia.
Qed.

Lemma getValidUrl_spec articles baseUrl u :
  getValidUrl articles baseUrl = Some u →
  isValidUrl articles u VUndefined = true
  ∧ ∃ k, u = candidate baseUrl k
         ∧ ∀ i, i < k → candidate baseUrl i ∈ Article.url <$> articles.
Proof.
  intros (j & _ & -> & Hv & Hin)%(getValidUrl_loop_Some _ _ _ 0).
  split; [done|]. exists j. split; [done|]. intros i Hi. apply Hin. lia.
Qed.

Lemma getValidUrl_fresh articles baseUrl u :
  getValidUrl articles baseUrl = Some u → u ∉ Article.url <$> articles.
Proof.
  intros [Hv _]%getValidUrl_spec Hin%isValidUrl_undefined. congruence.
Qed.

End article_facts.

Section article_claims.
Import JS ArticleService.

Lemma assign_urls_spec noteIds articles baseUrl :
  ∃ urls,
    assign_urls noteIds articles baseUrl = Some urls
    ∧ length urls = length noteIds
    ∧ NoDup urls
    ∧ (∀ u, u ∈ urls → u ∉ Article.url <$> articles)
    ∧ (∀ u, u ∈ urls → ∃ k, u = candidate baseUrl k).
Proof.
  revert articles.
  induction noteIds as [|noteId rest IH]; intros articles; simpl.
  - exists []. repeat split; [constructor|intros u Hu..];
      by apply elem_of_nil in Hu.
  - destruct (getValidUrl_returns articles baseUrl) as [u Hu].
    destruct (IH (store articles noteId u))
      as (us & Hrun & Hlen & Hnd & Hnew & Hc).
    rewrite Hu. simpl. rewrite Hrun. simpl. exists (u :: us).
    assert (Hstored : ∀ x, x ∈ us →
              x ≠ u ∧ x ∉ Article.url <$> articles).
    { intros x Hx. specialize (Hnew x Hx). unfold store in Hnew.
      rewrite fmap_app, elem_of_app in Hnew. simpl in Hnew.
      split; [|tauto]. intros ->. apply Hnew. right. left. }
    repeat split.
    + simpl. by rewrite Hlen.
    + apply NoDup_cons. split; [|done]. intros Hin.
      by destruct (Hstored u Hin).
    + intros x [->|Hx]%elem_of_cons.
      * by apply (getValidUrl_fresh _ baseUrl).
      * by apply Hstored.
    + intros x [->|Hx]%elem_of_cons; [|by apply Hc].
      apply getValidUrl_spec in Hu as (_ & k & -> & _). by exists k.
Qed.

(** C5, as the code has it.  [getValidUrl] returns an url, an url no
    article holds, and it does not change the collection.  When each
    returned url is stored in the collection before the next call, the
    results of the calls with one base are pairwise distinct, each begins
    with the base, and, when an article already holds the base, each is the
    base followed by a dash and a number. *)
Theorem getValidUrl_stored_results_distinct
    (noteIds : list string) (articles : list Article.t) (baseUrl : string) :
  ∃ urls,
    assign_urls noteIds articles baseUrl = Some urls
    ∧ length urls = length noteIds
    ∧ NoDup urls
    ∧ (∀ u, u ∈ urls → u ∉ Article.url <$> articles)
    ∧ (∀ u, u ∈ urls → ∃ suffix, u = baseUrl +:+ suffix)
    ∧ (baseUrl ∈ Article.url <$> articles →
       ∀ u, u ∈ urls → ∃ k, u = baseUrl +:+ "-" +:+ pretty (S k)).
Proof.
  destruct (assign_urls_spec noteIds articles baseUrl)
    as (urls & Hrun & Hlen & Hnd & Hnew & Hc).
  exists urls. repeat split; try done.
  - intros u (k & ->)%Hc. apply candidate_prefix.
  - intros Hbase u Hu. destruct (Hc u Hu) as ([|k] & ->).
    + by destruct (Hnew _ Hu).
    + by exists k.
Qed.

(** C5 as stated fails: two calls with the same base against the same
    collection return the same url. *)
Lemma getValidUrl_repeats_its_result :
  repeated_calls 2 one_post "post" = [Some "post-1"; Some "post-1"]
  ∧ ¬ NoDup (repeated_calls 2 one_post "post").
Proof.
  assert (H : repeated_calls 2 one_post "post"
              = [Some "post-1"; Some "post-1"]) by by vm_compute.
  split; [done|]. rewrite H. intros [Hnotin _]%NoDup_cons.
  apply Hnotin. left.
Qed.



End article_claims.

(** ** Theme loading *)

Section site_claims.
Import SiteService.

(** C3, as the code has it.  When the site is ready and fetching the theme
    fails: with a theme active, the call returns, the state is as before and
    the error has been reported; with no theme active and a default theme
    that loads, the call returns, the default theme is active and the error
    has been reported. *)
Theorem loadTheme_failure_keeps_or_falls_back
    (getTheme : string → result Theme.t) (DEFAULT_THEME_NAME : string)
    (themeName : string) (s : SiteService.t) (site_value : Site.t)
    (error : exn) :
  site s = Some site_value →
  getTheme themeName = Err error →
  (∀ previous, themeConfig s = Some previous →
     loadTheme getTheme DEFAULT_THEME_NAME themeName s
     = Ok (reportError error "Fail to load theme" s))
  ∧ (∀ fallback, themeConfig s = None →
       getTheme DEFAULT_THEME_NAME = Ok fallback →
       loadTheme getTheme DEFAULT_THEME_NAME themeName s
       = Ok {| site := site s; themes := themes s;
               themeConfig := Some fallback;
               reported := reported s ++ [(error, "Fail to load theme")] |}).
Proof.
  intros Hsite Hfail.
  destruct s as [site0 themes0 active reports]; simpl in *; subst site0.
  split.
  - intros previous ->. unfold loadTheme. simpl. by rewrite Hfail.
  - intros fallback -> Hdefault. unfold loadTheme. simpl.
    by rewrite Hfail, Hdefault.
Qed.

Lemma loadTheme_failure_witness :
  loadTheme only_default_loads "default" "fancy" fresh_service
  = Ok {| site := site fresh_service; themes := [];
          themeConfig := Some default_theme;
          reported := [(Error "cannot load theme fancy", "Fail to load theme")] |}.
Proof.
  refine (proj2 (loadTheme_failure_keeps_or_falls_back
            only_default_loads "default" "fancy" fresh_service
            _ (Error "cannot load theme fancy") _ _) default_theme _ _);
    reflexivity.
Defined.

(** C3 as stated fails: with no theme active and a default theme that does
    not load either, the call fails and nothing is reported. *)
Lemma loadTheme_fails_when_default_fails :
  site fresh_service ≠ None
  ∧ no_theme_loads "default" = Err (Error "cannot load theme default")
  ∧ loadTheme no_theme_loads "default" "default" fresh_service
    = Err (Error "cannot load theme default")
  ∧ ¬ is_Ok (loadTheme no_theme_loads "default" "default" fresh_service).
Proof.
  repeat split; [done|]. intros [s' Hs']. discriminate Hs'.
Qed.

End site_claims.

(** ** The git worker *)

Section worker_executions.
Import WorkerGit.
Context {St : Type} (handle : ∀ c : call, St → result (ret c) * St).

Lemma run_await_bind {B} (c : call) (f : ret c → prog B) (s : St) :
  run handle (await c ≫= f) s
  = match handle c s with
    | (Ok r, s') => let '(t, out) := run handle (f r) s' in (c :: t, out)
    | (Err e, s') => ([c], (Err e, s'))
    end.
Proof. reflexivity. Qed.

Lemma trace_await_bind {B} (c : call) (f : ret c → prog B) (s : St) :
  trace handle (await c ≫= f) s
  = c :: match handle c s with
         | (Ok r, s') => trace handle (f r) s'
         | (Err _, _) => []
         end.
Proof.
  unfold trace. rewrite run_await_bind.
  destruct (handle c s) as [[r|e] s']; [|done].
  by destruct (run handle (f r) s').
Qed.

Lemma run_bind {A B} (p : prog A) (f : A → prog B) (s : St) :
  run handle (p ≫= f) s
  = match run handle p s with
    | (t, (Ok a, s')) =>
        let '(t', out) := run handle (f a) s' in (t ++ t', out)
    | (t, (Err e, s')) => (t, (Err e, s'))
    end.
Proof.
  revert s; induction p as [a|c k IH]; intros s.
  - change (run handle (f a) s
            = let '(t', out) := run handle (f a) s in ([] ++ t', out)).
    by destruct (run handle (f a) s).
  - change (Await c k ≫= f) with (Await c (λ r, k r ≫= f)). simpl.
    destruct (handle c s) as [[r|e] s']; [|done].
    rewrite IH. destruct (run handle (k r) s') as [t [[a|e] s'']]; [|done].
    by destruct (run handle (f a) s'').
Qed.

Lemma all_calls_bind {A B} (P : call → Prop) (p : prog A) (f : A → prog B) :
  all_calls P p → (∀ a, all_calls P (f a)) → all_calls P (p ≫= f).
Proof.
  intros Hp Hf. induction p as [a|c k IH]; [apply Hf|].
  change (Await c k ≫= f) with (Await c (λ r, k r ≫= f)).
  destruct Hp as [Hc Hk]. split; [done|]. intros r. by apply IH.
Qed.

Lemma all_calls_for_of (P : call → Prop) l (body : string → prog unit) :
  (∀ x, all_calls P (body x)) → all_calls P (for_of l body).
Proof.
  intros Hbody. induction l as [|x l IH]; [done|].
  apply all_calls_bind; [apply Hbody|]. by intros _.
Qed.

Lemma all_calls_trace {A} (P : call → Prop) (p : prog A) (s : St) :
  all_calls P p → Forall P (trace handle p s).
Proof.
  unfold trace. revert s; induction p as [a|c k IH]; intros s; simpl.
  - by constructor.
  - intros [Hc Hk]. destruct (handle c s) as [[r|e] s']; simpl.
    + specialize (IH r s' (Hk r)).
      destruct (run handle (k r) s') as [t out]. by constructor.
    + by repeat constructor.
Qed.



(** C8. In every execution of [publish], whatever the environment answers,
    the first call is the three-second timer; all the calls after it are git
    operations, so each git operation comes after the timer; and when the
    timer does not complete no git operation is issued. *)
Theorem publish_waits_before_git
    (gitInfo : GitInfo) (githubInfo : GithubInfo) (files : list string)
    (s : St) :
  ∃ rest,
    trace handle (publish gitInfo githubInfo files) s = SetTimeout 3000 :: rest
    ∧ Forall (λ c, is_git_operation c = true) rest
    ∧ (∀ i c, trace handle (publish gitInfo githubInfo files) s !! i = Some c →
              is_git_operation c = true → 0 < i)
    ∧ (∀ e s', handle (SetTimeout 3000) s = (Err e, s') → rest = []).
Proof.
  unfold publish. rewrite trace_await_bind. eexists. split; [reflexivity|].
  split; [|split].
  - destruct (handle (SetTimeout 3000) s) as [[r|e] s1]; [|constructor].
    apply all_calls_trace.
    split; [done|]. intros ?. split; [done|]. intros filesExisted.
    apply (all_calls_bind _ (for_of _ _)).
    + apply all_calls_for_of. intros x. by split.
    + intros ?. split; [done|]. intros ?. by split.
  - intros [|i] c; [|lia]. by intros [= <-].
  - intros e s' Htimer. by rewrite Htimer.
Qed.

End worker_executions.

Section worker_on_git.
Import JS WorkerGit.



Lemma run_remove_all g l w :
  run (handle_git g)
      (for_of l (λ deletedFile, await (Remove (dir g) (gitdir g) deletedFile))) w
  = (Remove (dir g) (gitdir g) <$> l,
     (Ok (), set_index (index w ∖ list_to_set l) w)).
Proof.
  revert w; induction l as [|x l IH]; intros w.
  - simpl. rewrite difference_empty_L. by destruct w.
  - change (for_of (x :: l) ?body) with (body x ;; for_of l body).
    rewrite run_await_bind. simpl handle_git. cbv iota beta. rewrite IH.
    simpl. by rewrite difference_difference_l_L.
Qed.


(** What [publish] does to the repository when the target branch exists:
    the calls it issues, and the index and the branch after the commit.  The
    push may still be rejected; the commit is made before it. *)
Lemma publish_run g h files b E w :
  branch h = Some b → heads w !! b = Some E →
  let deletedFiles :=
    difference (elements E) (relative_to (dir g) <$> files) in
  let staged := (index w ∪ worktree w) ∖ list_to_set deletedFiles in
  trace (handle_git g) (publish g h files) w
  = [SetTimeout 3000; Add (gitdir g) (dir g) ".";
     ListFiles (gitdir g) (dir g) (Some b)]
    ++ (Remove (dir g) (gitdir g) <$> deletedFiles)
    ++ [Commit (gitdir g) "test" (Some b);
        Push (gitdir g) (dir g) (Some b) (Some b) (remote g) (url g)
             (userName h) (token h)]
  ∧ index (final (handle_git g) (publish g h files) w) = staged
  ∧ heads (final (handle_git g) (publish g h files) w)
    = <[b := staged]> (heads w)
  ∧ worktree (final (handle_git g) (publish g h files) w) = worktree w.
Proof.
  intros Hb HE deletedFiles staged.
  unfold trace, final, publish. rewrite Hb.
  rewrite run_await_bind. simpl handle_git. cbv iota beta.
  rewrite (run_await_bind _ (Add _ _ _)). simpl handle_git. cbv iota beta.
  rewrite (run_await_bind _ (ListFiles _ _ _)). simpl handle_git.
  rewrite HE. cbv iota beta.
  rewrite run_bind, run_remove_all. cbv iota beta.
  fold (relative_to (dir g)). fold deletedFiles.
  rewrite (run_await_bind _ (Commit _ _ _)). simpl handle_git. cbv iota beta.
  unfold await, run, current_branch. simpl.
  rewrite lookup_insert_eq. fold staged.
  by destruct (network w !! url g) as [r|]; [destruct (accepts r _ _)|].
Qed.


Lemma handle_git_EmptyDir_both g w :
  handle_git g (EmptyDir (gitdir g)) w
  = (Ok (), (handle_git g (EmptyDir (gitdir g)) w).2)
  ∧ handle_git g (EmptyDir (dir g)) (handle_git g (EmptyDir (gitdir g)) w).2
    = (Ok (), {| worktree := ∅; index := ∅; heads := ∅; HEAD := "";
                 config := ∅; network := network w |}).
Proof.
  split; [done|]. simpl.
  rewrite !(bool_decide_eq_true_2 (gitdir g = gitdir g)) by done.
  rewrite !(bool_decide_eq_true_2 (dir g = dir g)) by done.
  destruct (bool_decide (gitdir g = dir g)); simpl;
    by destruct (bool_decide (dir g = gitdir g)).
Qed.

Lemma initRepo_run_git g h w r :
  network w !! url g = Some r →
  accepts r (userName h) (token h) = true →
  run (handle_git g) (initRepo g h) w
  = (initRepo_calls g h [default_branch r],
     (Ok (), initialised g h r (network w))).
Proof.
  intros Hnet Hacc. unfold initRepo.
  destruct (handle_git_EmptyDir_both g w) as [H1 H2].
  rewrite (run_await_bind _ (EmptyDir _)), H1. cbv iota beta.
  rewrite (run_await_bind _ (EmptyDir _)), H2. cbv iota beta.
  rewrite (run_await_bind _ (Clone _ _ _ _ _ _ _ _)). simpl handle_git.
  rewrite Hnet, Hacc. cbv iota beta.
  rewrite (run_await_bind _ (ListBranches _ _)). simpl handle_git.
  rewrite insert_empty, dom_singleton_L, elements_singleton. cbv iota beta.
  unfold initRepo_calls, initialised.
  destruct (decide (branchName h = default_branch r)) as [Heq|Hne].
  - rewrite !bool_decide_eq_true_2 by (rewrite Heq; left).
    rewrite Heq, insert_singleton_eq. done.
  - rewrite !bool_decide_eq_false_2
      by (by intros ?%list_elem_of_singleton).
    rewrite (run_await_bind _ (Branch _ _ _)). simpl handle_git.
    rewrite lookup_singleton_ne by done. simpl.
    by rewrite lookup_singleton_eq.
Qed.

End worker_on_git.

Section initRepo_any_environment.
Import WorkerGit.
Context {St : Type} (handle : ∀ c : call, St → result (ret c) * St).

(** One awaited call: it rejects and the execution stops there, or it
    resolves and the execution goes on. *)
Ltac prefix_steps := simpl; repeat apply prefix_cons; apply prefix_nil.

Ltac await_call c :=
  rewrite (run_await_bind handle c);
  destruct (handle c _) as [[?|?] ?];
    [cbv iota beta
    |exists []; simpl; split;
       [prefix_steps | intros [? ?]; discriminate]].

Lemma run_ret_bind {A B} (a : A) (f : A → prog B) (s : St) :
  run handle (mret a ≫= f) s = run handle (f a) s.
Proof. reflexivity. Qed.

(** Whatever the environment answers, [initRepo] issues its calls in the
    order of [initRepo_calls], up to the first call that rejects. *)
Lemma initRepo_trace (g : GitInfo) (h : GithubInfo) (s : St) :
  ∃ branches,
    trace handle (initRepo g h) s `prefix_of` initRepo_calls g h branches
    ∧ (is_Ok (outcome handle (initRepo g h) s) →
       trace handle (initRepo g h) s = initRepo_calls g h branches).
Proof.
  unfold trace, outcome, initRepo, initRepo_calls.
  await_call (EmptyDir (gitdir g)).
  await_call (EmptyDir (dir g)).
  await_call (Clone (dir g) (gitdir g) (url g) (remote g) 1 true
                    (userName h) (token h)).
  rewrite (run_await_bind handle (ListBranches (dir g) (gitdir g))).
  destruct (handle (ListBranches _ _) _) as [[branches|?] ?];
    [cbv iota beta
    |exists []; simpl; split; [prefix_steps|intros [? ?]; discriminate]].
  exists branches. repeat case_bool_decide; try done.
  - rewrite run_ret_bind.
    rewrite (run_await_bind handle (SetConfig _ _ _)).
    destruct (handle (SetConfig _ _ _) _) as [[?|?] ?];
      [cbv iota beta|simpl; split; [prefix_steps|intros [? ?]; discriminate]].
    unfold await. simpl.
    destruct (handle (SetConfig _ "user.email" _) _) as [[?|?] ?]; simpl;
      (split; [prefix_steps|]); [done|intros [? ?]; discriminate].
  - rewrite (run_await_bind handle (Branch _ _ _)).
    destruct (handle (Branch _ _ _) _) as [[?|?] ?];
      [cbv iota beta|simpl; split; [prefix_steps|intros [? ?]; discriminate]].
    rewrite (run_await_bind handle (SetConfig _ _ _)).
    destruct (handle (SetConfig _ _ _) _) as [[?|?] ?];
      [cbv iota beta|simpl; split; [prefix_steps|intros [? ?]; discriminate]].
    unfold await. simpl.
    destruct (handle (SetConfig _ "user.email" _) _) as [[?|?] ?]; simpl;
      (split; [prefix_steps|]); [done|intros [? ?]; discriminate].
Qed.

End initRepo_any_environment.

Section worker_claims.
Import JS WorkerGit.

(** [initRepo] makes the worker ready to publish to its branch, and
    [publish] keeps it ready: the index holds only files of the branch's
    last commit whenever the worker is used as intended. *)
Lemma initRepo_ready g h w r :
  network w !! url g = Some r →
  accepts r (userName h) (token h) = true →
  ready (branchName h) (final (handle_git g) (initRepo g h) w).
Proof.
  intros Hnet Hacc. unfold final. rewrite (initRepo_run_git g h w r Hnet Hacc).
  simpl. eexists. split; [apply lookup_insert_eq|]. simpl.
  apply empty_subseteq.
Qed.

Lemma publish_ready g h files b w :
  branch h = Some b → ready b w →
  ready b (final (handle_git g) (publish g h files) w).
Proof.
  intros Hb (E & HE & _).
  destruct (publish_run g h files b E w Hb HE) as (_ & Hindex & Hheads & _).
  eexists. split; [rewrite Hheads; apply lookup_insert_eq|].
  by rewrite Hindex.
Qed.

(** C6, as the code has it.  In every environment [initRepo] issues, in this
    order and up to the first call that rejects: the emptying of the git
    directory and of the working directory, the clone with depth 1, without
    checkout and with the user name and token, the listing of the branches,
    the creation of the branch when the listing does not have it, and the
    two settings of the identity.  On a remote that accepts the credentials
    the result does not depend on what the directories held before, so a
    second run changes nothing; the branch exists and the identity is set.
    The branch is the one supplied, and [master] when none is supplied. *)
Theorem initRepo_wipes_clones_prepares_branch
    {St : Type} (handle : ∀ c : call, St → result (ret c) * St) (s : St)
    (g : GitInfo) (h : GithubInfo) (w : World) (r : Remote) :
  (∃ branches,
     trace handle (initRepo g h) s `prefix_of` initRepo_calls g h branches
     ∧ (is_Ok (outcome handle (initRepo g h) s) →
        trace handle (initRepo g h) s = initRepo_calls g h branches))
  ∧ (network w !! url g = Some r →
     accepts r (userName h) (token h) = true →
     let w' := final (handle_git g) (initRepo g h) w in
     outcome (handle_git g) (initRepo g h) w = Ok ()
     ∧ w' = initialised g h r (network w)
     ∧ final (handle_git g) (initRepo g h) w' = w'
     ∧ is_Some (heads w' !! branchName h)
     ∧ config w' !! "user.name" = Some (userName h)
     ∧ config w' !! "user.email" = Some (email h))
  ∧ (branch h = None → branchName h = "master")
  ∧ (∀ b, branch h = Some b → branchName h = b).
Proof.
  split; [apply initRepo_trace|]. split; [|split].
  - intros Hnet Hacc w'.
    assert (Hw' : w' = initialised g h r (network w)).
    { subst w'. unfold final. by rewrite (initRepo_run_git g h w r). }
    rewrite Hw'. unfold outcome, final.
    rewrite (initRepo_run_git g h w r Hnet Hacc).
    rewrite (initRepo_run_git g h (initialised g h r (network w)) r Hnet Hacc).
    split; [done|]. split; [done|]. split; [done|]. simpl.
    split; [|split].
    + rewrite lookup_insert_eq. by eexists.
    + rewrite lookup_insert_ne by done. apply lookup_insert_eq.
    + apply lookup_insert_eq.
  - unfold branchName. by intros ->.
  - unfold branchName. by intros b ->.
Qed.

(** C6 as stated fails: with no branch name, on a repository whose default
    branch is [main], [initRepo] creates and uses the branch [master]. *)
Lemma initRepo_defaults_to_master :
  branch no_branch_given = None
  ∧ default_branch remote_main = "main"
  ∧ trace (handle_git example_git) (initRepo example_git no_branch_given) blank
    = [EmptyDir "git"; EmptyDir "out";
       Clone "out" "git" "https://example.org/site.git" "origin" 1 true
             "ann" "secret";
       ListBranches "out" "git";
       Branch "out" "git" "master";
       SetConfig "git" "user.name" "ann";
       SetConfig "git" "user.email" "ann@example.org"]
  ∧ branchName no_branch_given ≠ default_branch remote_main.
Proof.
  split; [done|]. split; [done|]. split; [|done].
  unfold trace.
  by rewrite (initRepo_run_git example_git no_branch_given blank remote_main).
Qed.


End worker_claims.

(** ** The definitions at work on concrete inputs *)

Section examples.
Import JS ArticleService WorkerGit.

Example trimMarkdownPrefix_examples :
  Page.trimMarkdownPrefix (VStr "markdown://# Title") = Ok (VStr "# Title")
  ∧ Page.trimMarkdownPrefix (VStr "plain") = Ok (VStr "plain")
  ∧ Page.trimMarkdownPrefix (VStr "see markdown://x")
    = Ok (VStr "see markdown://x")
  ∧ Page.trimMarkdownPrefix (VNum 3)
    = Err (TypeError "content.replace is not a function").
Proof. by vm_compute. Qed.

Example relative_to_examples :
  relative_to "out" "out/a/b.html" = "a/b.html"
  ∧ relative_to "out" "index.html" = "index.html"
  ∧ relative_to "a" "b/a/c" = "b/c".
Proof. by vm_compute. Qed.

Example getValidUrl_examples :
  getValidUrl [] "post" = Some "post"
  ∧ getValidUrl one_post "post" = Some "post-1"
  ∧ getValidUrl (store one_post "note-2" "post-1") "post" = Some "post-2"
  ∧ assign_urls ["note-2"; "note-3"; "note-4"] one_post "post"
    = Some ["post-1"; "post-2"; "post-3"].
Proof. by vm_compute. Qed.

Example fields_examples :
  Field.name <$> Page.fields "index" default_theme = []
  ∧ Field.name <$> Page.fields "article" default_theme = ["url"; "dateFormat"]
  ∧ Field.name <$> Page.fields "about" default_theme = ["url"]
  ∧ Field.name <$> Page.fields "index" theme_declaring_url = ["url"].
Proof. by vm_compute. Qed.

(** Persisted values of the wrong shape: a string is merged by its
    characters, a number and null bring nothing. *)
Example new_page_examples :
  Page.fieldVars <$> Page.new "about" (VStr "ab") default_theme
  = Ok (<["0" := VStr "a"]> (<["1" := VStr "b"]> {[ "url" := VNull ]}))
  ∧ Page.fieldVars <$> Page.new "about" (VNum 7) default_theme
    = Ok {[ "url" := VNull ]}
  ∧ Page.fieldVars <$> Page.new "about" VNull default_theme
    = Ok {[ "url" := VNull ]}
  ∧ Page.fieldVars <$>
      Page.new "about" (VObj {[ "url" := VStr "me"; "extra" := VBool true ]})
               default_theme
    = Ok (<["extra" := VBool true]> {[ "url" := VStr "me" ]}).
Proof. by vm_compute. Qed.

(** With no branch name [publish] passes no ref: the listing is that of the
    index and the commit goes to the current branch. *)
Example publish_without_branch_name :
  removed (trace (handle_git example_git)
                 (publish example_git no_branch_given ["out/a"])
                 published_abc) ≡ₚ ["b"; "c"; "d"]
  ∧ index (final (handle_git example_git)
                 (publish example_git no_branch_given ["out/a"])
                 published_abc) = {[ "a" ]}
  ∧ heads (final (handle_git example_git)
                 (publish example_git no_branch_given ["out/a"])
                 published_abc) !! "gh-pages" = Some {[ "a" ]}.
Proof.
  split; [|by vm_compute].
  assert (removed (trace (handle_git example_git)
                         (publish example_git no_branch_given ["out/a"])
                         published_abc) = ["c"; "b"; "d"]) as ->
    by by vm_compute.
  apply perm_swap.
Qed.

End examples.

(** ** More of the page model: reloading, saving, the url *)

Section page_more.
Import JS JSCoerce.

Lemma new_page_eq name persistedFieldVars themeConfig p :
  Page.new name persistedFieldVars themeConfig = Ok p →
  Page.name p = name ∧ Page.themeConfig p = themeConfig
  ∧ ∀ key,
      Page.fieldVars p !! key
      = match own_props persistedFieldVars !! key with
        | Some v =>
            Some (decoded (Page.getMarkdownFieldNames
                             (Page.fields name themeConfig)) key v)
        | None =>
            if bool_decide (key ∈ Field.name <$> Page.fields name themeConfig)
            then Some VNull else None
        end.
Proof.
  intros Hp.
  destruct (new_page_Ok name persistedFieldVars themeConfig) as (q & Hq & Hvars).
  assert (q = p) as -> by congruence.
  unfold Page.new in Hp. apply setValues_same_schema in Hp. simpl in Hp.
  by destruct Hp.
Qed.


(** X1. Saving a page and building it again from what was saved gives the same
    page. *)
Theorem page_reload_round_trip
    (name : string) (persistedFieldVars : value) (themeConfig : Theme.t)
    (p : Page.t) :
  Page.new name persistedFieldVars themeConfig = Ok p →
  Page.new name (VObj (Page.outputValues p)) themeConfig = Ok p.
Proof.
  intros Hp. destruct (new_page_eq _ _ _ _ Hp) as (Hname & Htheme & Hvars).
  destruct (new_page_Ok name (VObj (Page.outputValues p)) themeConfig)
    as (q & Hq & Hq_vars).
  destruct (new_page_eq _ _ _ _ Hq) as (Hqname & Hqtheme & _).
  rewrite Hq. f_equal. destruct p as [pn pt pv], q as [qn qt qv].
  simpl in *. subst. f_equal. apply map_eq. intros key.
  rewrite Hq_vars. simpl. unfold Page.outputValues. simpl.
  rewrite map_lookup_imap. unfold Page.markdownFieldNames. simpl.
  destruct (pv !! key) as [v|] eqn:Hv; simpl.
  - f_equal. unfold decoded.
    destruct (bool_decide (key ∈ _)) eqn:Hmd; destruct v; simpl;
      rewrite ?Hmd, ?replace_anchored_app; done.
  - rewrite Hvars in Hv.
    destruct (own_props persistedFieldVars !! key); [done|].
    by destruct (bool_decide _).
Qed.

Lemma page_reload_round_trip_witness :
  ∃ p, Page.new "article" (VObj {[ "url" := VStr "hello" ]}) default_theme = Ok p
       ∧ Page.new "article" (VObj (Page.outputValues p)) default_theme = Ok p.
Proof.
  destruct (new_page_Ok "article" (VObj {[ "url" := VStr "hello" ]}) default_theme)
    as (p & Hp & _).
  exists p. split; [exact Hp|].
  exact (page_reload_round_trip _ _ _ p Hp).
Defined.

(** X2. Setting the same values a second time changes nothing. *)
Theorem setValues_twice (p p1 : Page.t) (values : value) :
  Page.setValues p values = Ok p1 →
  Page.setValues p1 values = Ok p1.
Proof.
  intros H1. rewrite setValues_Ok in H1. injection H1 as <-.
  rewrite setValues_Ok. simpl. do 2 f_equal.
  apply map_eq. intros key. rewrite !lookup_union, !map_lookup_imap.
  unfold Page.markdownFieldNames. simpl.
  destruct (own_props values !! key) as [v|]; simpl; [|by rewrite !(left_id None _)].
  by rewrite !union_Some_l.
Qed.

Lemma setValues_twice_witness :
  ∃ p1, Page.setValues (Page.mk "about" default_theme ∅)
                       (VObj {[ "title" := VStr "markdown://x" ]}) = Ok p1
        ∧ Page.setValues p1 (VObj {[ "title" := VStr "markdown://x" ]}) = Ok p1.
Proof.
  eexists. split; [apply setValues_Ok|].
  apply (setValues_twice (Page.mk "about" default_theme ∅)).
  apply setValues_Ok.
Defined.



End page_more.

Section page_url.
Import JS JSCoerce.

(** X4. The url of a page: the root for the index page; for another page a
    slash and the page's name as long as no url is set (nothing persisted,
    or null, or the empty string), and a slash and the url once one is
    set. *)
Theorem page_url_of_new_page
    (name : string) (persistedFieldVars : value) (themeConfig : Theme.t)
    (p : Page.t) :
  Page.new name persistedFieldVars themeConfig = Ok p →
  (name = INDEX_PAGE_NAME → PageComputed.url p = "/")
  ∧ (name ≠ INDEX_PAGE_NAME →
     truthy (get (own_props persistedFieldVars) "url") = false →
     PageComputed.url p = "/" +:+ name)
  ∧ (name ≠ INDEX_PAGE_NAME →
     ∀ u, own_props persistedFieldVars !! "url" = Some (VStr u) →
          u ≠ "" → "url" ∉ Page.markdownFieldNames p →
          PageComputed.url p = "/" +:+ u).
Proof.
  intros Hp. destruct (new_page_eq _ _ _ _ Hp) as (Hname & Htheme & Hvars).
  unfold PageComputed.url. rewrite Hname. split; [|split].
  - intros ->. by rewrite decide_True.
  - intros Hne Hfalsy. rewrite decide_False by done.
    unfold get in *. rewrite Hvars.
    destruct (own_props persistedFieldVars !! "url") as [v|]; simpl.
    + destruct v; simpl in *; try done.
      * by destruct b.
      * by destruct (n =? 0)%Z.
      * destruct s; [|done]. unfold decoded. by destruct (bool_decide _).
    + rewrite bool_decide_eq_true_2; [done|].
      rewrite fields_eq, decide_False by done. simpl. left.
  - intros Hne u Hu Hnonempty Hmd. rewrite decide_False by done.
    unfold get. rewrite Hvars, Hu. simpl.
    unfold Page.markdownFieldNames in Hmd. rewrite Hname, Htheme in Hmd.
    rewrite bool_decide_eq_false_2 by done. simpl.
    by destruct u.
Qed.

Lemma page_url_of_new_page_witness :
  ∃ p, Page.new "about" VNull default_theme = Ok p
       ∧ PageComputed.url p = "/about".
Proof.
  destruct (new_page_Ok "about" VNull default_theme) as (p & Hp & _).
  exists p. split; [exact Hp|].
  destruct (page_url_of_new_page "about" VNull default_theme p Hp)
    as (_ & Hunset & _).
  apply Hunset; done.
Defined.

End page_url.

(** ** The field form *)

Section field_form.
Import JS JSCoerce FieldForm.

Lemma settle_set v ds : nullish v = false → settle v ds = v.
Proof.
  revert v; induction ds as [|d ds IH]; intros v Hv; [done|].
  unfold settle in *. simpl. rewrite Hv. by apply IH.
Qed.

Lemma settle_cons v d ds :
  settle v (d :: ds) = settle (if nullish v then d else v) ds.
Proof. reflexivity. Qed.

Lemma get_insert (m : gmap string value) k v k' :
  get (<[k := v]> m) k' = if decide (k = k') then v else get m k'.
Proof.
  unfold get. rewrite lookup_insert. by destruct (decide (k = k')).
Qed.

Lemma useFieldForm_lookup fields (model : gmap string value) key :
  useFieldForm fields model !! key
  = match defaults_for key fields with
    | [] => model !! key
    | ds => Some (settle (get model key) ds)
    end.
Proof.
  revert model; induction fields as [|f fields IH]; intros model; [done|].
  unfold useFieldForm in *. simpl. rewrite IH. clear IH.
  unfold defaults_for. rewrite filter_cons.
  destruct (decide (Field.name f = key)) as [<-|Hne].
  - rewrite fmap_cons, get_insert, decide_True, lookup_insert_eq by done.
    by destruct ((λ f0, default VUndefined (Field.defaultValue f0)) <$> _).
  - rewrite get_insert, decide_False by done.
    by rewrite lookup_insert_ne.
Qed.

Lemma get_not_nullish (model : gmap string value) key :
  nullish (get model key) = false → model !! key = Some (get model key).
Proof. unfold get. by destruct (model !! key). Qed.

(** X5. [useFieldForm] leaves every value that is set (neither null nor
    undefined) as it is, and every key that no field names. *)
Theorem useFieldForm_keeps_set_values
    (fields : list Field.t) (model : gmap string value) (key : string) :
  (nullish (get model key) = false →
   useFieldForm fields model !! key = model !! key)
  ∧ (key ∉ Field.name <$> fields →
     useFieldForm fields model !! key = model !! key).
Proof.
  rewrite useFieldForm_lookup. split.
  - intros Hset. destruct (defaults_for key fields) as [|d ds]; [done|].
    by rewrite settle_set, get_not_nullish.
  - intros Hkey. unfold defaults_for.
    assert (Hnone : filter (λ f, Field.name f = key) fields = []).
    { clear -Hkey. induction fields as [|f fields IH]; [done|].
      rewrite fmap_cons in Hkey. apply not_elem_of_cons in Hkey as [Hne Hkey].
      rewrite filter_cons, decide_False by done. by apply IH. }
    by rewrite Hnone.
Qed.

(** X6. Running [useFieldForm] again changes nothing. *)
Theorem useFieldForm_idempotent
    (fields : list Field.t) (model : gmap string value) :
  useFieldForm fields (useFieldForm fields model) = useFieldForm fields model.
Proof.
  apply map_eq. intros key. rewrite (useFieldForm_lookup fields (useFieldForm _ _)).
  destruct (defaults_for key fields) as [|d ds] eqn:Hds; [done|].
  assert (Hget : get (useFieldForm fields model) key
                 = settle (get model key) (d :: ds)).
  { unfold get at 1. by rewrite useFieldForm_lookup, Hds. }
  rewrite useFieldForm_lookup, Hds, Hget. f_equal.
  destruct (nullish (settle (get model key) (d :: ds))) eqn:Hres.
  - rewrite (settle_cons (settle _ _)), Hres, settle_cons.
    destruct (nullish (get model key)) eqn:Hv; [done|].
    rewrite settle_cons, Hv, settle_set in Hres by done. congruence.
  - by apply settle_set.
Qed.

Lemma settle_filled v ds d :
  d ∈ ds → nullish d = false → nullish (settle v ds) = false.
Proof.
  revert v; induction ds as [|d' ds IH]; intros v Hin Hd.
  - by apply elem_of_nil in Hin.
  - rewrite settle_cons. apply elem_of_cons in Hin as [<-|Hin]; [|by apply IH].
    destruct (nullish v) eqn:Hv; rewrite settle_set; done.
Qed.

(** X7. After [useFieldForm] every field that has a default value (one that is
    neither null nor undefined) has a value. *)
Theorem useFieldForm_fills_defaults
    (fields : list Field.t) (model : gmap string value)
    (f : Field.t) (d : value) :
  f ∈ fields → Field.defaultValue f = Some d → nullish d = false →
  nullish (get (useFieldForm fields model) (Field.name f)) = false.
Proof.
  intros Hf Hd Hset. unfold get at 1. rewrite useFieldForm_lookup.
  assert (Hin : d ∈ defaults_for (Field.name f) fields).
  { unfold defaults_for. apply list_elem_of_fmap. exists f.
    split; [by rewrite Hd|]. by apply list_elem_of_filter. }
  destruct (defaults_for (Field.name f) fields) as [|d0 ds] eqn:Hds.
  - by apply elem_of_nil in Hin.
  - exact (settle_filled _ _ d Hin Hset).
Qed.

Lemma useFieldForm_fills_defaults_witness :
  nullish (get (useFieldForm [dateFormat_field] ∅) "dateFormat") = false.
Proof.
  apply (useFieldForm_fills_defaults [dateFormat_field] ∅ dateFormat_field
           (VStr "YYYY-MM-DD HH:mm")); [left|done|done].
Defined.

(** X8. The form of an article page: when nothing is persisted for the date
    format (or null is), the form's model holds the default format, whatever
    the theme declares. *)
Theorem article_form_has_date_format
    (persistedFieldVars : value) (themeConfig : Theme.t) (p : Page.t) :
  Page.new ARTICLE_PAGE_NAME persistedFieldVars themeConfig = Ok p →
  nullish (get (own_props persistedFieldVars) "dateFormat") = true →
  useFieldForm (Page.fields ARTICLE_PAGE_NAME themeConfig) (Page.fieldVars p)
    !! "dateFormat"
  = Some (VStr "YYYY-MM-DD HH:mm").
Proof.
  intros Hp Hnone. destruct (new_page_eq _ _ _ _ Hp) as (_ & _ & Hvars).
  rewrite useFieldForm_lookup.
  assert (Hds : ∃ ds, defaults_for "dateFormat"
                        (Page.fields ARTICLE_PAGE_NAME themeConfig)
                      = VStr "YYYY-MM-DD HH:mm" :: ds).
  { rewrite fields_eq. unfold defaults_for. by eexists. }
  destruct Hds as [ds ->]. f_equal. rewrite settle_cons.
  assert (Hv : nullish (get (Page.fieldVars p) "dateFormat") = true).
  { unfold get in *. rewrite Hvars.
    destruct (own_props persistedFieldVars !! "dateFormat") as [v|]; simpl.
    - by destruct v.
    - by destruct (bool_decide _). }
  rewrite Hv. by apply settle_set.
Qed.

Lemma article_form_has_date_format_witness :
  ∃ p, Page.new ARTICLE_PAGE_NAME VNull default_theme = Ok p
       ∧ useFieldForm (Page.fields ARTICLE_PAGE_NAME default_theme)
                      (Page.fieldVars p) !! "dateFormat"
         = Some (VStr "YYYY-MM-DD HH:mm").
Proof.
  destruct (new_page_Ok ARTICLE_PAGE_NAME VNull default_theme) as (p & Hp & _).
  exists p. split; [exact Hp|].
  by apply (article_form_has_date_format VNull default_theme p Hp).
Defined.

End field_form.

(** ** The rules of the site form *)

Section site_edit.
Import JS JSCoerce SiteEdit.

Lemma rules_fold_lookup themeName fields acc key rules :
  foldl (rules_step themeName) acc fields !! key = Some rules →
  acc !! key = Some rules
  ∨ ∃ field rs, field ∈ fields ∧ Field.rules field = Some rs
      ∧ key = "custom." +:+ themeName +:+ "." +:+ Field.name field
      ∧ rules = with_message field <$> rs.
Proof.
  revert acc; induction fields as [|f fields IH]; intros acc; simpl; [by left|].
  intros [Hacc|(field & rs & Hin & Hrs & -> & ->)]%IH.
  - unfold rules_step in Hacc. destruct (Field.rules f) as [rs|] eqn:Hf; [|by left].
    rewrite lookup_insert in Hacc. case_decide; [|by left].
    injection Hacc as <-. right. exists f, rs. split; [left|done].
  - right. exists field, rs. split; [by right|done].
Qed.

Lemma rules_fold_is_Some themeName fields acc field :
  field ∈ fields → Field.rules field ≠ None →
  is_Some (foldl (rules_step themeName) acc fields
           !! ("custom." +:+ themeName +:+ "." +:+ Field.name field)).
Proof.
  assert (Hkeep : ∀ fs a k,
    is_Some (a !! k) → is_Some (foldl (rules_step themeName) a fs !! k)).
  { induction fs as [|f fs IH]; intros a k Hk; [done|]. simpl. apply IH.
    unfold rules_step. destruct (Field.rules f); [|done].
    rewrite lookup_insert. by case_decide. }
  revert acc; induction fields as [|f fields IH]; intros acc Hin Hrules.
  - by apply elem_of_nil in Hin.
  - simpl. apply elem_of_cons in Hin as [->|Hin]; [|by apply IH].
    apply Hkeep. unfold rules_step.
    destruct (Field.rules f); [|done]. rewrite lookup_insert_eq. by eexists.
Qed.

Lemma append_nonempty (s t : string) : t ≠ "" → String.eqb (s +:+ t) "" = false.
Proof. intros Ht. apply String.eqb_neq. by destruct s. Qed.

Lemma with_message_has_message field rule :
  truthy (get (with_message field rule) "required") = true →
  truthy (get (with_message field rule) "message") = true.
Proof.
  unfold with_message.
  destruct (truthy (get rule "required")) eqn:Hreq; [|congruence].
  intros _. rewrite get_insert, decide_True by done.
  destruct (truthy (get rule "message")) eqn:Hmsg; [done|].
  simpl. by rewrite append_nonempty.
Qed.

(** X9. The rules of the site form.  Without a theme, or with a theme without
    a name, there are none.  Otherwise a site field has rules under the key
    [custom.<theme>.<field>] exactly when the theme gives it rules, as many
    as the theme gives; a rule that is not required is the theme's, and
    every required rule carries a message. *)
Theorem customFieldRules_required_have_messages (theme : Theme.t) :
  customFieldRules None = ∅
  ∧ (Theme.name theme = "" → customFieldRules (Some theme) = ∅)
  ∧ (Theme.name theme ≠ "" →
     (∀ key rules,
        customFieldRules (Some theme) !! key = Some rules →
        (∃ field rs,
           field ∈ Theme.siteFields theme ∧ Field.rules field = Some rs
           ∧ key = "custom." +:+ Theme.name theme +:+ "." +:+ Field.name field
           ∧ length rules = length rs
           ∧ ∀ i rule, rs !! i = Some rule →
               truthy (get rule "required") = false →
               rules !! i = Some rule)
        ∧ Forall (λ rule, truthy (get rule "required") = true →
                          truthy (get rule "message") = true) rules)
     ∧ (∀ field, field ∈ Theme.siteFields theme → Field.rules field ≠ None →
          is_Some (customFieldRules (Some theme)
                   !! ("custom." +:+ Theme.name theme +:+ "."
                       +:+ Field.name field)))).
Proof.
  split; [done|]. split.
  - intros Hname. unfold customFieldRules. by rewrite Hname.
  - intros Hname%String.eqb_neq. unfold customFieldRules. rewrite Hname.
    split.
    + intros key rules Hkey.
      change (foldl (rules_step (Theme.name theme)) ∅ (Theme.siteFields theme)
              !! key = Some rules) in Hkey.
      apply rules_fold_lookup in Hkey
        as [Hempty|(field & rs & Hin & Hrs & -> & ->)];
        [by rewrite lookup_empty in Hempty|].
      split.
      * exists field, rs. repeat split; try done.
        -- by rewrite length_fmap.
        -- intros i rule Hi Hreq. rewrite list_lookup_fmap, Hi. simpl.
           unfold with_message. by rewrite Hreq.
      * apply Forall_fmap, Forall_forall. intros rule _.
        exact (with_message_has_message field rule).
    + intros field Hin Hrules.
      by apply (rules_fold_is_Some (Theme.name theme)).
Qed.

End site_edit.

(** ** The article collection and the selection *)

Section lodash_facts.
Import Lodash.

Lemma elem_of_pull array values x :
  x ∈ pull array values ↔ x ∈ array ∧ x ∉ values.
Proof. unfold pull. by rewrite list_elem_of_filter, (comm and). Qed.

Lemma filter_none {A} (P : A → Prop) `{∀ x, Decision (P x)} (l : list A) :
  (∀ x, x ∈ l → ¬ P x) → filter P l = [].
Proof.
  induction l as [|x l IH]; intros Hl; [done|].
  rewrite filter_cons, decide_False by (apply Hl; left).
  apply IH. intros y Hy. apply Hl. by right.
Qed.

Lemma pull_nil array : pull array [] = array.
Proof.
  unfold pull. induction array as [|x l IH]; [done|].
  rewrite filter_cons, decide_True by apply not_elem_of_nil. by rewrite IH.
Qed.

Lemma pull_snoc_fresh array x : x ∉ array → pull (array ++ [x]) [x] = array.
Proof.
  unfold pull. intros Hx. rewrite filter_app.
  rewrite (filter_cons _ x), decide_False, filter_nil, app_nil_r
    by (intros H; apply H; left).
  induction array as [|y l IH]; [done|].
  apply not_elem_of_cons in Hx as [Hne Hx].
  rewrite filter_cons, decide_True, IH; [done|done|].
  by intros ?%list_elem_of_singleton.
Qed.

Lemma uniq_from_spec {A} `{EqDecision A} (seen l : list A) :
  NoDup (uniq_from seen l)
  ∧ ∀ x, x ∈ uniq_from seen l ↔ x ∈ l ∧ x ∉ seen.
Proof.
  revert seen; induction l as [|y l IH]; intros seen; simpl.
  - split; [constructor|]. intros x. rewrite elem_of_nil. tauto.
  - destruct (decide (y ∈ seen)) as [Hy|Hy].
    + destruct (IH seen) as [Hnd Hin]. split; [done|].
      intros x. rewrite Hin, elem_of_cons. split; [tauto|].
      intros [[->|Hx] Hs]; tauto.
    + destruct (IH (y :: seen)) as [Hnd Hin]. split.
      * apply NoDup_cons. split; [|done]. rewrite Hin.
        intros [_ Hn]. apply Hn. left.
      * intros x. rewrite !elem_of_cons, Hin, not_elem_of_cons.
        split.
        -- intros [->|(Hx & Hne & Hs)]; tauto.
        -- intros [[->|Hx] Hs]; [by left|].
           destruct (decide (x = y)) as [->|]; [by left|]. right. tauto.
Qed.

Lemma NoDup_uniq {A} `{EqDecision A} (l : list A) : NoDup (uniq l).
Proof. apply uniq_from_spec. Qed.

Lemma elem_of_uniq {A} `{EqDecision A} (l : list A) x : x ∈ uniq l ↔ x ∈ l.
Proof.
  unfold uniq. rewrite (proj2 (uniq_from_spec [] l)).
  split; [tauto|]. intros Hx. split; [done|]. apply not_elem_of_nil.
Qed.

End lodash_facts.

Section store_facts.
Import ArticleStore.

Lemma set_published_same b a :
  Article.published a = b → set_published b a = a.
Proof. intros <-. by destruct a. Qed.

Lemma set_published_twice b a :
  set_published b (set_published b a) = set_published b a.
Proof. done. Qed.

(** The loop of [togglePublished] over the selection [l], from the store
    [h0] and the toggled ones [t0]. *)
Lemma toggle_fold status l h0 t0 :
  let b := status_bool status in
  let acc := foldl (toggle_step status) (h0, t0) l in
  (∀ r, acc.1 !! r
        = if decide (r ∈ l) then set_published b <$> h0 !! r else h0 !! r)
  ∧ (∀ x, x ∈ acc.2
          ↔ x ∈ t0 ∨ (x ∈ l ∧ ∃ a, h0 !! x = Some a
                                   ∧ Article.published a = negb b)).
Proof.
  intros b. revert h0 t0. induction l as [|r l IH]; intros h0 t0; simpl.
  - split; [done|]. intros x. rewrite elem_of_nil. tauto.
  - set (acc1 := toggle_step status (h0, t0) r).
    destruct (IH acc1.1 acc1.2) as [Hh Ht].
    rewrite <-surjective_pairing in Hh, Ht.
    assert (Hstep :
      match h0 !! r with
      | Some a =>
          if bool_decide (Article.published a = negb b)
          then acc1 = (<[r := set_published b a]> h0, t0 ++ [r])
          else acc1 = (h0, t0)
      | None => acc1 = (h0, t0)
      end).
    { subst acc1 b. unfold toggle_step. simpl.
      destruct (h0 !! r) as [a|]; [|done].
      destruct status, (Article.published a); simpl; done. }
    destruct (h0 !! r) as [a|] eqn:Hr.
    + case_bool_decide as Hpub; rewrite Hstep in Hh, Ht |- *; simpl in Hh, Ht.
      * split.
        -- intros x. rewrite Hh. destruct (decide (x = r)) as [->|Hne].
           ++ rewrite lookup_insert_eq, Hr, (decide_True (P := r ∈ r :: l))
                by left. simpl. by destruct (decide (r ∈ l)).
           ++ rewrite lookup_insert_ne by done.
              destruct (decide (x ∈ l)).
              ** by rewrite decide_True by by right.
              ** by rewrite decide_False by by apply not_elem_of_cons.
        -- intros x. rewrite Ht, elem_of_app, list_elem_of_singleton, elem_of_cons.
           destruct (decide (x = r)) as [->|Hne].
           ++ split; [|tauto]. intros _. right. split; [by left|]. by exists a.
           ++ rewrite lookup_insert_ne by done. tauto.
      * assert (Hsame : Article.published a = b).
        { destruct (Article.published a), b; simpl in *; congruence. }
        split.
        -- intros x. rewrite Hh. destruct (decide (x = r)) as [->|Hne].
           ++ rewrite Hr, (decide_True (P := r ∈ r :: l)) by left. simpl.
              rewrite (set_published_same _ _ Hsame).
              by destruct (decide (r ∈ l)).
           ++ destruct (decide (x ∈ l)).
              ** by rewrite decide_True by by right.
              ** by rewrite decide_False by by apply not_elem_of_cons.
        -- intros x. rewrite Ht, elem_of_cons.
           split; [tauto|].
           intros [?|[[->|Hx] (a' & Ha' & Hp)]];
             [by left| |right; split; [done|by exists a']].
           rewrite Hr in Ha'. injection Ha' as <-. by destruct Hpub.
    + rewrite Hstep in Hh, Ht |- *; simpl in Hh, Ht. split.
      * intros x. rewrite Hh. destruct (decide (x = r)) as [->|Hne].
        -- rewrite Hr, (decide_True (P := r ∈ r :: l)) by left.
           by destruct (decide (r ∈ l)).
        -- destruct (decide (x ∈ l)).
           ++ by rewrite decide_True by by right.
           ++ by rewrite decide_False by by apply not_elem_of_cons.
      * intros x. rewrite Ht, elem_of_cons.
        split; [tauto|].
        intros [?|[[->|Hx] (a' & Ha' & Hp)]];
          [by left|congruence|right; split; [done|by exists a']].
Qed.

End store_facts.

Section store_claims.
Import ArticleStore.

(** X10. Every article is listed as published or as unpublished, and not as
    both: the two lists are the collection split in two, each in the order
    of the collection. *)
Theorem published_unpublished_partition (st : ArticleStore.t) :
  store_wf st →
  articles st ≡ₚ publishedArticles st ++ unpublishedArticles st
  ∧ (∀ r, r ∈ publishedArticles st → r ∉ unpublishedArticles st)
  ∧ publishedArticles st `sublist_of` articles st
  ∧ unpublishedArticles st `sublist_of` articles st.
Proof.
  intros Hwf. unfold publishedArticles, unpublishedArticles, with_published.
  split; [|split; [|split; apply sublist_filter]].
  - assert (Hres : ∀ r, r ∈ articles st → is_Some (heap st !! r))
      by (intros r Hr; apply Hwf; by left).
    induction (articles st) as [|r l IH]; [done|].
    destruct (Hres r) as [a Ha]; [left|].
    rewrite !filter_cons, Ha. simpl.
    assert (IH' := IH (λ x Hx, Hres x (list_elem_of_further _ _ _ Hx))).
    destruct (Article.published a).
    + rewrite decide_True, decide_False by done. simpl. by constructor.
    + rewrite decide_False, decide_True by done.
      rewrite <-Permutation_middle. by constructor.
  - intros r [Hp _]%list_elem_of_filter [Hu _]%list_elem_of_filter. congruence.
Qed.

Lemma published_unpublished_partition_witness :
  publishedArticles three_articles = [0; 2]
  ∧ unpublishedArticles three_articles = [1]
  ∧ articles three_articles
    ≡ₚ publishedArticles three_articles ++ unpublishedArticles three_articles.
Proof.
  split; [by vm_compute|]. split; [by vm_compute|].
  apply (published_unpublished_partition three_articles).
  intros r Hr. assert (r ∈ [0; 1; 2]) as Hin.
  { destruct Hr as [Hr|Hr]; [done|].
    apply list_elem_of_singleton in Hr as ->. set_solver. }
  repeat (apply elem_of_cons in Hin as [->|Hin]; [by vm_compute; eexists|]).
  by apply elem_of_nil in Hin.
Defined.

(** X11. [togglePublished]: every selected article gets the status and keeps
    its other properties; no other article changes; the collection keeps
    its order; the articles that had the status already stay selected and
    the toggled ones leave the selection; the collection is saved as it is
    after the change. *)
Theorem togglePublished_sets_selected (status : Status) (st : ArticleStore.t) :
  let st' := togglePublished status st in
  let b := status_bool status in
  (∀ r a, r ∈ selectedArticles st → heap st !! r = Some a →
          heap st' !! r = Some (set_published b a))
  ∧ (∀ r, r ∉ selectedArticles st → heap st' !! r = heap st !! r)
  ∧ (∀ r, r ∈ selectedArticles st'
          ↔ r ∈ selectedArticles st
            ∧ ¬ ∃ a, heap st !! r = Some a ∧ Article.published a = negb b)
  ∧ articles st' = articles st
  ∧ saved st' = saved st ++ [collection st'].
Proof.
  intros st' b.
  destruct (toggle_fold status (selectedArticles st) (heap st) []) as [Hh Ht].
  split; [|split; [|split; [|split]]]; try done.
  - intros r a Hr Ha. subst st'. simpl. by rewrite Hh, decide_True, Ha.
  - intros r Hr. subst st'. simpl. by rewrite Hh, decide_False.
  - intros r. subst st'. simpl. rewrite elem_of_pull, Ht, elem_of_nil.
    split.
    + intros [Hr Hn]. split; [done|]. intros Ha. apply Hn. by right.
    + intros [Hr Hn]. split; [done|]. intros [[]|[_ Ha]]. by apply Hn.
Qed.

End store_claims.

Section selection_claims.
Import ArticleStore Lodash.

(** X12. [toggleArticleSelected] flips the membership of the article in the
    selection and of no other; nothing is saved; toggling an article that
    was not selected twice gives the selection back. *)
Theorem toggleArticleSelected_flips (article : nat) (st : ArticleStore.t) :
  let st' := toggleArticleSelected article st in
  (article ∈ selectedArticles st' ↔ article ∉ selectedArticles st)
  ∧ (∀ x, x ≠ article →
          (x ∈ selectedArticles st' ↔ x ∈ selectedArticles st))
  ∧ saved st' = saved st
  ∧ (article ∉ selectedArticles st →
     selectedArticles (toggleArticleSelected article st') = selectedArticles st).
Proof.
  intros st'. subst st'. unfold toggleArticleSelected. simpl.
  destruct (decide (article ∈ selectedArticles st)) as [Hin|Hin].
  - rewrite !bool_decide_eq_true_2 by done.
    split; [|split; [|split]]; try done.
    + rewrite elem_of_pull, list_elem_of_singleton. tauto.
    + intros x Hx. rewrite elem_of_pull, list_elem_of_singleton. tauto.
  - rewrite (bool_decide_eq_false_2 _ Hin).
    split; [|split; [|split]]; try done.
    + rewrite elem_of_app, list_elem_of_singleton. tauto.
    + intros x Hx. rewrite elem_of_app, list_elem_of_singleton. tauto.
    + intros _. rewrite bool_decide_eq_true_2.
      * by apply pull_snoc_fresh.
      * apply elem_of_app. right. left.
Qed.

(** X13. [selectAll] selects each article once: the ones that were selected and
    those of the status. *)
Theorem selectAll_selects_each_once (status : Status) (st : ArticleStore.t) :
  let st' := selectAll status st in
  NoDup (selectedArticles st')
  ∧ (∀ r, r ∈ selectedArticles st'
          ↔ r ∈ selectedArticles st
            ∨ r ∈ with_published (status_bool status) st)
  ∧ heap st' = heap st ∧ articles st' = articles st ∧ saved st' = saved st.
Proof.
  intros st'. subst st'. unfold selectAll. simpl.
  split; [apply NoDup_uniq|]. split; [|done].
  intros r. rewrite elem_of_uniq, elem_of_app. by destruct status.
Qed.

(** X14. Selecting all the published articles and unpublishing the selection
    leaves no published article, and the same with the two statuses
    exchanged. *)
Theorem selectAll_then_toggle_empties (st : ArticleStore.t) :
  store_wf st →
  publishedArticles (togglePublished unpublished (selectAll published st)) = []
  ∧ unpublishedArticles (togglePublished published (selectAll unpublished st)) = [].
Proof.
  intros Hwf.
  assert (Hgen : ∀ status other,
    status_bool other = negb (status_bool status) →
    with_published (status_bool status)
      (togglePublished other (selectAll status st)) = []).
  { intros status other Hother.
    set (st1 := selectAll status st).
    destruct (toggle_fold other (selectedArticles st1) (heap st1) []) as [Hh _].
    unfold with_published, togglePublished. simpl.
    apply filter_none. intros r Hr.
    destruct (Hwf r (or_introl Hr)) as [a Ha].
    rewrite Hh. simpl. rewrite Ha.
    destruct (decide (r ∈ uniq _)) as [Hs|Hs]; simpl.
    - rewrite Hother. by destruct (status_bool status).
    - intros [= Hp]. apply Hs, elem_of_uniq, elem_of_app. right.
      assert (r ∈ with_published (status_bool status) st) as Hin.
      { apply list_elem_of_filter. split; [|done]. by rewrite Ha, <-Hp. }
      by destruct status. }
  split.
  - by apply (Hgen published unpublished).
  - by apply (Hgen unpublished published).
Qed.

End selection_claims.

Section collection_claims.
Import ArticleStore Lodash.

Lemma three_articles_wf : store_wf three_articles.
Proof.
  intros r Hr. assert (r ∈ [0; 1; 2]) as Hin.
  { destruct Hr as [Hr|Hr]; [done|].
    apply list_elem_of_singleton in Hr as ->. by right; left. }
  repeat (apply elem_of_cons in Hin as [->|Hin]; [by vm_compute; eexists|]).
  by apply elem_of_nil in Hin.
Qed.

Lemma selectAll_then_toggle_empties_witness :
  publishedArticles
    (togglePublished unpublished (selectAll published three_articles)) = [].
Proof.
  exact (proj1 (selectAll_then_toggle_empties three_articles three_articles_wf)).
Defined.

(** X15. With nothing selected before, selecting all the articles of a status
    and removing the selection leaves the articles of the other status, in
    their order; the selection is empty afterwards and what is saved is the
    collection that is left. *)
Theorem selectAll_then_remove (st : ArticleStore.t) :
  store_wf st → selectedArticles st = [] →
  let st1 := removeArticles (selectAll published st) in
  let st2 := removeArticles (selectAll unpublished st) in
  articles st1 = unpublishedArticles st
  ∧ articles st2 = publishedArticles st
  ∧ selectedArticles st1 = [] ∧ selectedArticles st2 = []
  ∧ saved st1 = saved st ++ [collection st1]
  ∧ saved st2 = saved st ++ [collection st2].
Proof.
  intros Hwf Hnone st1 st2.
  assert (Hgen : ∀ b,
    pull (articles st) (uniq (selectedArticles st ++ with_published b st))
    = with_published (negb b) st).
  { intros b. rewrite Hnone. simpl. unfold pull, with_published.
    assert (Hres : ∀ r, r ∈ articles st → is_Some (heap st !! r))
      by (intros r Hr; apply Hwf; by left).
    assert (Hall : ∀ r, r ∈ uniq (filter
                     (λ r, Article.published <$> heap st !! r = Some b)
                     (articles st))
                   → Article.published <$> heap st !! r = Some b).
    { intros r Hr. apply (proj1 (elem_of_uniq _ _)) in Hr.
      by apply list_elem_of_filter in Hr as [? _]. }
    assert (Hback : ∀ r, r ∈ articles st →
                     Article.published <$> heap st !! r = Some b →
                     r ∈ uniq (filter
                       (λ r, Article.published <$> heap st !! r = Some b)
                       (articles st))).
    { intros r Hr Hp. apply elem_of_uniq. by apply list_elem_of_filter. }
    revert Hall Hback. generalize (uniq (filter
      (λ r, Article.published <$> heap st !! r = Some b) (articles st))).
    intros sel Hall Hback.
    induction (articles st) as [|r l IH]; [done|].
    destruct (Hres r) as [a Ha]; [left|].
    rewrite !filter_cons.
    rewrite IH; [|intros x Hx; apply Hres; by right
                 |intros x Hx; apply Hback; by right].
    destruct (decide (r ∈ sel)) as [Hs|Hs].
    - rewrite decide_False by tauto. apply Hall in Hs.
      rewrite decide_False; [done|]. rewrite Hs. by destruct b.
    - rewrite decide_True by done. rewrite decide_True; [done|].
      rewrite Ha. simpl. destruct (decide (Article.published a = b)) as [Hp|Hp].
      + destruct Hs. apply Hback; [left|]. by rewrite Ha, <-Hp.
      + f_equal. by destruct (Article.published a), b. }
  subst st1 st2.
  unfold removeArticles, selectAll, saveArticles, publishedArticles,
    unpublishedArticles.
  cbn [articles selectedArticles saved].
  by rewrite (Hgen true), (Hgen false).
Qed.

Lemma selectAll_then_remove_witness :
  articles (removeArticles
              (selectAll published (toggleArticleSelected 1 three_articles)))
  = [1].
Proof.
  refine (proj1 (selectAll_then_remove
                   (toggleArticleSelected 1 three_articles) _ _)).
  - intros r Hr. apply three_articles_wf. destruct Hr as [Hr|Hr]; [by left|].
    by vm_compute in Hr; apply elem_of_nil in Hr.
  - by vm_compute.
Defined.

(** X16. The tags of the published articles: each once, and no tag that only
    unpublished articles have. *)
Theorem allTags_of_published (st : ArticleStore.t) :
  NoDup (allTags st)
  ∧ ∀ tag, tag ∈ allTags st
           ↔ ∃ r a, r ∈ articles st ∧ heap st !! r = Some a
                    ∧ Article.published a = true ∧ tag ∈ Article.tags a.
Proof.
  unfold allTags. split; [apply NoDup_uniq|].
  intros tag. rewrite elem_of_uniq, list_elem_of_join. split.
  - intros (tags & Htag & (r & Hr & Htags)%list_elem_of_omap).
    apply list_elem_of_filter in Hr as [Hp Hr].
    destruct (heap st !! r) as [a|] eqn:Ha; [|done].
    simpl in *. injection Hp as Hp. injection Htags as <-. by exists r, a.
  - intros (r & a & Hr & Ha & Hp & Htag). exists (Article.tags a).
    split; [done|]. apply list_elem_of_omap. exists r. split.
    + apply list_elem_of_filter. split; [|done]. by rewrite Ha, <-Hp.
    + by rewrite Ha.
Qed.

End collection_claims.

Section saveArticle_claims.
Import JS ArticleStore.

Lemma elem_of_collection st a :
  a ∈ collection st ↔ ∃ r, r ∈ articles st ∧ heap st !! r = Some a.
Proof. unfold collection. apply list_elem_of_omap. Qed.

Lemma findIndex_Some st id i r :
  findIndex st id = Some (i, r)
  ↔ articles st !! i = Some r
    ∧ Article.noteId <$> heap st !! r = Some id
    ∧ ∀ j r', articles st !! j = Some r' → j < i →
              Article.noteId <$> heap st !! r' ≠ Some id.
Proof.
  unfold findIndex.
  apply (list_find_Some (λ r, Article.noteId <$> heap st !! r = Some id)).
Qed.

(** X17. [saveArticle] without a noteId (none, or the empty string), or with a
    noteId that no article of the collection has, throws; the two errors
    differ. *)
Theorem saveArticle_rejects (article : Partial) (st : ArticleStore.t) :
  (noteId article = None ∨ noteId article = Some "" →
   saveArticle article st = Err (Error "no article noteId when saving"))
  ∧ (∀ id, noteId article = Some id → id ≠ "" →
       (∀ a, a ∈ collection st → Article.noteId a ≠ id) →
       saveArticle article st = Err (Error "no article when saving")).
Proof.
  unfold saveArticle. split.
  - by intros [->| ->].
  - intros id -> Hid%String.eqb_neq Hnone. rewrite Hid.
    assert (findIndex st id = None) as ->; [|done].
    apply list_find_None, Forall_forall. intros r Hr Hp.
    destruct (heap st !! r) as [a|] eqn:Ha; [|done].
    injection Hp as Hp. apply (Hnone a); [|done].
    apply elem_of_collection. by exists r.
Qed.

(** X18. [saveArticle] with the noteId of an article of the collection: the
    first article with the noteId takes the given properties and keeps the
    others; no other article changes; the collection and the selection keep
    their members and order; the collection is saved as it is after the
    change. *)
Theorem saveArticle_updates_first
    (article : Partial) (st : ArticleStore.t) (id : string) (a0 : Article.t) :
  noteId article = Some id → id ≠ "" →
  a0 ∈ collection st → Article.noteId a0 = id →
  ∃ st' i r a,
    saveArticle article st = Ok st'
    ∧ articles st !! i = Some r ∧ heap st !! r = Some a
    ∧ Article.noteId a = id
    ∧ (∀ j r' a', j < i → articles st !! j = Some r' →
                  heap st !! r' = Some a' → Article.noteId a' ≠ id)
    ∧ heap st' !! r = Some (assign a article)
    ∧ (∀ r', r' ≠ r → heap st' !! r' = heap st !! r')
    ∧ articles st' = articles st
    ∧ selectedArticles st' = selectedArticles st
    ∧ saved st' = saved st ++ [collection st'].
Proof.
  intros Hid Hne%String.eqb_neq (r0 & Hr0 & Ha0)%elem_of_collection Hnote.
  destruct (list_find_elem_of
              (λ r, Article.noteId <$> heap st !! r = Some id)
              (articles st) r0 Hr0) as [[i r] Hfind].
  { by rewrite Ha0, <-Hnote. }
  pose proof (proj1 (findIndex_Some st id i r) Hfind) as (Hi & Hp & Hfirst).
  destruct (heap st !! r) as [a|] eqn:Ha; [|done]. injection Hp as Hp.
  unfold saveArticle. rewrite Hid, Hne.
  unfold findIndex. rewrite Hfind.
  eexists _, i, r, a. split; [done|]. simpl.
  split; [done|]. split; [done|]. split; [done|]. split.
  - intros j r' a' Hj Hr' Ha' Heq. apply (Hfirst j r' Hr' Hj).
    by rewrite Ha', <-Heq.
  - split; [by rewrite lookup_alter_eq, Ha|]. split; [|done].
    intros r' Hr'. by rewrite lookup_alter_ne.
Qed.

Lemma saveArticle_updates_first_witness :
  ∃ st', saveArticle
           {| noteId := Some "note-2"; url := Some "draft"; tags := None;
              content := None; published_ := None; updatedAt := None |}
           three_articles = Ok st'
         ∧ Article.url <$> collection st' = ["post"; "draft"; "about"].
Proof.
  destruct (saveArticle_updates_first
              {| noteId := Some "note-2"; url := Some "draft"; tags := None;
                 content := None; published_ := None; updatedAt := None |}
              three_articles "note-2"
              (Article.mk "note-2" "post-1" ["b"; "c"] None false 0))
    as (st' & i & r & a & Hsave & _); [done|done|by vm_compute; right; left|done|].
  exists st'. split; [exact Hsave|].
  vm_compute in Hsave. injection Hsave as <-. by vm_compute.
Defined.

(** X19. [saveArticle] does not validate the url: it stores an url that another
    article holds, an url [isValidUrl] rejects for the saved article, and
    afterwards the other article's own url is rejected for it too. *)
Theorem saveArticle_stores_taken_url
    (st : ArticleStore.t) (r1 r2 : nat) (a1 a2 : Article.t) (i : nat) :
  r1 ∈ articles st → heap st !! r1 = Some a1 → heap st !! r2 = Some a2 →
  Article.noteId a1 ≠ Article.noteId a2 → Article.noteId a2 ≠ "" →
  findIndex st (Article.noteId a2) = Some (i, r2) →
  let article :=
    {| noteId := Some (Article.noteId a2); url := Some (Article.url a1);
       tags := None; content := None; published_ := None;
       updatedAt := None |} in
  isValidUrl st (Article.url a1) (VStr (Article.noteId a2)) = false
  ∧ ∃ st', saveArticle article st = Ok st'
      ∧ isValidUrl st' (Article.url a1) (VStr (Article.noteId a1)) = false
      ∧ isValidUrl st' (Article.url a1) (VStr (Article.noteId a2)) = false.
Proof.
  intros Hr1 Ha1 Ha2 Hids Hne%String.eqb_neq Hfind article.
  pose proof (proj1 (findIndex_Some _ _ _ _) Hfind) as (Hi & _ & _).
  assert (Hr12 : r1 ≠ r2) by (intros ->; congruence).
  split.
  - apply isValidUrl_false. exists a1. split; [|split; [congruence|done]].
    apply elem_of_collection. by exists r1.
  - unfold saveArticle. subst article. cbn [noteId]. rewrite Hne, Hfind.
    eexists. split; [done|]. unfold isValidUrl. split.
    + apply isValidUrl_false. eexists. split; [|split].
      * apply elem_of_collection. exists r2. simpl.
        split; [by eapply list_elem_of_lookup_2|].
        by rewrite lookup_alter_eq, Ha2.
      * simpl. congruence.
      * done.
    + apply isValidUrl_false. exists a1. split; [|split; [congruence|done]].
      apply elem_of_collection. exists r1. simpl. split; [done|].
      by rewrite lookup_alter_ne.
Qed.

Lemma saveArticle_stores_taken_url_witness :
  ∃ st', saveArticle
           {| noteId := Some "note-2"; url := Some "post"; tags := None;
              content := None; published_ := None; updatedAt := None |}
           three_articles = Ok st'
         ∧ isValidUrl st' "post" (VStr "note-1") = false.
Proof.
  destruct (saveArticle_stores_taken_url three_articles 0 1
              (Article.mk "note-1" "post" ["a"; "b"] None true 0)
              (Article.mk "note-2" "post-1" ["b"; "c"] None false 0) 1)
    as (_ & st' & Hsave & Hinvalid & _);
    [by left|done|done|done|done|by vm_compute|].
  by exists st'.
Defined.

End saveArticle_claims.

Section getValidUrl_more.
Import JS ArticleService.

(** X20. [getValidUrl] returns the base itself when no article holds it, and
    otherwise the base with the smallest number, from 1 on, that makes an
    url no article holds. *)
Theorem getValidUrl_smallest_free (articles : list Article.t) (baseUrl : string) :
  ∃ k, getValidUrl articles baseUrl = Some (candidate baseUrl k)
       ∧ (candidate baseUrl k ∉ Article.url <$> articles)
       ∧ (∀ i, i < k → candidate baseUrl i ∈ Article.url <$> articles)
       ∧ (baseUrl ∉ (Article.url <$> articles) → k = 0).
Proof.
  destruct (getValidUrl_returns articles baseUrl) as [u Hu].
  destruct (getValidUrl_spec _ _ _ Hu) as (_ & k & -> & Hheld).
  exists k. split; [done|]. split; [by eapply getValidUrl_fresh|].
  split; [done|]. intros Hfree. destruct k as [|k]; [done|].
  destruct Hfree. apply (Hheld 0). lia.
Qed.

End getValidUrl_more.

(** ** More of the site service *)

Section site_more.
Import SiteService.
Context (getTheme : string → result Theme.t) (DEFAULT_THEME_NAME : string).

Lemma ensure_custom_spec themeName site_value :
  Site.themeName (ensure_custom themeName site_value) = Site.themeName site_value
  ∧ is_Some (Site.custom (ensure_custom themeName site_value) !! themeName)
  ∧ (∀ k v, Site.custom site_value !! k = Some v →
            Site.custom (ensure_custom themeName site_value) !! k = Some v)
  ∧ (∀ k, k ≠ themeName →
          Site.custom (ensure_custom themeName site_value) !! k
          = Site.custom site_value !! k).
Proof.
  unfold ensure_custom.
  destruct (Site.custom site_value !! themeName) as [c|] eqn:Hc; simpl.
  - split_and!; try done.
  - split_and!; try done.
    + rewrite lookup_insert_eq. by eexists.
    + intros k v Hk. rewrite lookup_insert_ne; [done|congruence].
    + intros k Hk. by rewrite lookup_insert_ne.
Qed.

(** One call that returns: the site stays ready, keeps its theme name and
    every entry it had for a theme, and a theme is active afterwards. *)
Lemma loadTheme_returns themeName s s' :
  loadTheme getTheme DEFAULT_THEME_NAME themeName s = Ok s' →
  ∃ sv sv', site s = Some sv ∧ site s' = Some sv'
    ∧ Site.themeName sv' = Site.themeName sv
    ∧ (∀ k v, Site.custom sv !! k = Some v → Site.custom sv' !! k = Some v)
    ∧ is_Some (themeConfig s')
    ∧ reported s `prefix_of` reported s'
    ∧ themes s' = themes s.
Proof.
  unfold loadTheme. destruct (site s) as [sv|] eqn:Hsite; [|done].
  destruct (getTheme themeName) as [theme|error].
  - intros [= <-]. simpl.
    destruct (ensure_custom_spec themeName sv) as (Hn & _ & Hkeep & _).
    exists sv, (ensure_custom themeName sv). split_and!; try done; by eexists.
  - destruct (themeConfig s) as [previous|]; simpl.
    + intros [= <-]. simpl. exists sv, sv.
      split_and!; try done; try (by eexists); by apply prefix_app_r.
    + destruct (getTheme DEFAULT_THEME_NAME) as [fallback|]; [|done]. simpl.
      intros [= <-]. simpl. exists sv, sv.
      split_and!; try done; try (by eexists); by apply prefix_app_r.
Qed.

(** X21. A theme that loads becomes the active theme; the site gets an entry
    for it when it had none; the entries of the other themes, the rest of
    the site and the reports stay as they were. *)
Theorem loadTheme_success
    (themeName : string) (s : SiteService.t) (site_value : Site.t)
    (theme : Theme.t) :
  site s = Some site_value →
  getTheme themeName = Ok theme →
  ∃ s' site_value',
    loadTheme getTheme DEFAULT_THEME_NAME themeName s = Ok s'
    ∧ themeConfig s' = Some theme
    ∧ site s' = Some site_value'
    ∧ Site.custom site_value' !! themeName
      = Some (default ∅ (Site.custom site_value !! themeName))
    ∧ (∀ k, k ≠ themeName →
            Site.custom site_value' !! k = Site.custom site_value !! k)
    ∧ Site.themeName site_value' = Site.themeName site_value
    ∧ reported s' = reported s ∧ themes s' = themes s.
Proof.
  intros Hsite Hload. unfold loadTheme. rewrite Hsite, Hload.
  eexists _, _. split; [done|]. simpl.
  destruct (ensure_custom_spec themeName site_value) as (Hn & _ & _ & Hother).
  repeat split; try done.
  unfold ensure_custom.
  destruct (Site.custom site_value !! themeName) as [c|] eqn:Hc; simpl;
    [done|apply lookup_insert_eq].
Qed.

End site_more.

Section site_sequences.
Import SiteService.

Lemma loadTheme_success_witness :
  ∃ s', loadTheme only_default_loads "default" "default" fresh_service = Ok s'
        ∧ themeConfig s' = Some default_theme.
Proof.
  destruct (loadTheme_success only_default_loads "default" "default"
              fresh_service _ default_theme eq_refl eq_refl)
    as (s' & sv' & Hload & Htheme & _).
  by exists s'.
Defined.

(** X22. Switching themes keeps what the site holds.  Through any sequence of
    [loadTheme] calls that return, whether the themes load or not, the site
    keeps every entry it had for a theme (so switching to another theme and
    back finds the values of the first one), the reports only grow, and
    after at least one call a theme is active.  While the site is not ready
    every call throws. *)
Theorem loadTheme_seq_keeps_custom
    (getTheme : string → result Theme.t) (DEFAULT_THEME_NAME : string)
    (names : list string) (s s' : SiteService.t) :
  (loadTheme_seq getTheme DEFAULT_THEME_NAME names s = Ok s' →
   (∀ k v, custom_of s !! k = Some v → custom_of s' !! k = Some v)
   ∧ reported s `prefix_of` reported s'
   ∧ (names ≠ [] → is_Some (themeConfig s') ∧ is_Some (site s')))
  ∧ (site s = None →
     ∀ name, loadTheme getTheme DEFAULT_THEME_NAME name s
             = Err (Error "site is not ready when load theme")).
Proof.
  split.
  - revert s. induction names as [|name names IH]; intros s; simpl.
    + intros [= <-]. by repeat split.
    + destruct (loadTheme getTheme DEFAULT_THEME_NAME name s) as [s1|] eqn:H1;
        [|done]. simpl. intros Hrest.
      destruct (loadTheme_returns _ _ _ _ _ H1)
        as (sv & sv1 & Hs & Hs1 & _ & Hkeep & Hactive & Hrep & _).
      destruct (IH s1 Hrest) as (Hkeep' & Hrep' & Hlast).
      split; [|split].
      * intros k v Hk. apply Hkeep'. unfold custom_of in *.
        rewrite Hs in Hk. rewrite Hs1. by apply Hkeep.
      * by etrans.
      * intros _. destruct names as [|name' names]; [|by apply Hlast].
        simpl in Hrest. injection Hrest as <-. split; [done|]. by rewrite Hs1.
  - intros Hsite name. unfold loadTheme. by rewrite Hsite.
Qed.

Lemma loadTheme_seq_keeps_custom_witness :
  ∃ s', loadTheme_seq only_default_loads "default"
                      ["fancy"; "default"; "fancy"] fresh_service = Ok s'
        ∧ custom_of s' !! "default" = Some ∅.
Proof.
  assert (Hrun : ∃ s', loadTheme_seq only_default_loads "default"
                         ["fancy"; "default"; "fancy"] fresh_service = Ok s')
    by (by vm_compute; eexists).
  destruct Hrun as [s' Hs']. exists s'. split; [exact Hs'|].
  destruct (loadTheme_seq_keeps_custom only_default_loads "default"
              ["fancy"; "default"; "fancy"] fresh_service s')
    as [Hkeep _].
  destruct (Hkeep Hs') as (Hcustom & _). by apply Hcustom.
Defined.

End site_sequences.

(** ** Start of the site service *)

Section site_init.
Import SiteService SiteInit.
Context (getTheme : string → result Theme.t) (DEFAULT_THEME_NAME : string)
        (getThemes : result (list Theme.t))
        (getSite : result (option SavedSite)) (DEFAULT_SITE : Site.t).

(** X23. When [init] returns, the themes and the saved site were read; the site
    is ready, named after the saved theme name (the default one when none
    was saved), has an entry for that theme and every entry that was saved;
    the themes are stored and a theme is active. *)
Theorem init_returns_ready (s s' : SiteService.t) :
  init getTheme DEFAULT_THEME_NAME getThemes getSite DEFAULT_SITE s = Ok s' →
  ∃ themes_ saved site_value',
    getThemes = Ok themes_ ∧ getSite = Ok saved
    ∧ themes s' = themes_
    ∧ site s' = Some site_value'
    ∧ Site.themeName site_value'
      = default (Site.themeName DEFAULT_SITE) (saved ≫= themeName)
    ∧ is_Some (Site.custom site_value' !! Site.themeName site_value')
    ∧ (∀ k v, Site.custom (spread DEFAULT_SITE saved) !! k = Some v →
              Site.custom site_value' !! k = Some v)
    ∧ is_Some (themeConfig s')
    ∧ reported s `prefix_of` reported s'.
Proof.
  unfold init. destruct getThemes as [themes_|]; [|done].
  destruct getSite as [saved|]; [|done]. simpl. intros Hload.
  destruct (loadTheme_returns _ _ _ _ _ Hload)
    as (sv & sv' & Hs & Hs' & Hname & Hkeep & Hactive & Hrep & Hthemes).
  simpl in Hs, Hrep, Hthemes. injection Hs as <-.
  destruct (ensure_custom_spec (Site.themeName (spread DEFAULT_SITE saved))
              (spread DEFAULT_SITE saved)) as (Hn & Hentry & Hkeep0 & _).
  assert (Hspread : Site.themeName (spread DEFAULT_SITE saved)
                    = default (Site.themeName DEFAULT_SITE) (saved ≫= themeName)).
  { destruct saved as [saved|]; [|done]. simpl. by destruct (themeName saved). }
  exists themes_, saved, sv'. split_and!; try done.
  - by rewrite Hname, Hn.
  - rewrite Hname, Hn. destruct Hentry as [c Hc]. exists c. by apply Hkeep.
  - intros k v Hk. by apply Hkeep, Hkeep0.
Qed.

(** X24. [init] throws in three cases only: the themes cannot be read; the saved
    site cannot be read; or the site's theme does not load, no theme is
    active yet and the default theme does not load either.  The error is
    that of the read that failed last. *)
Theorem init_throws_iff (s : SiteService.t) (e : exn) :
  init getTheme DEFAULT_THEME_NAME getThemes getSite DEFAULT_SITE s = Err e
  ↔ getThemes = Err e
    ∨ (is_Ok getThemes ∧ getSite = Err e)
    ∨ (∃ saved error,
         is_Ok getThemes ∧ getSite = Ok saved
         ∧ getTheme (Site.themeName (spread DEFAULT_SITE saved)) = Err error
         ∧ themeConfig s = None
         ∧ getTheme DEFAULT_THEME_NAME = Err e).
Proof.
  unfold init. destruct getThemes as [themes_|e0]; simpl.
  2:{ split.
      - intros [= <-]. by left.
      - intros [[= <-]|[[[? ?] _]|(? & ? & [? ?] & _)]]; done. }
  destruct getSite as [saved|e1]; simpl.
  2:{ split.
      - intros [= <-]. right; left. split; [by eexists|done].
      - intros [?|[[_ [= <-]]|(? & ? & _ & ? & _)]]; done. }
  unfold loadTheme. simpl.
  destruct (getTheme (Site.themeName (spread DEFAULT_SITE saved)))
    as [theme|error] eqn:Hload.
  { split; [done|]. intros [?|[[_ ?]|(? & ? & _ & [= <-] & ? & _)]]; try done.
    congruence. }
  destruct (themeConfig s) as [previous|] eqn:Hprev; simpl.
  { split; [done|]. intros [?|[[_ ?]|(? & ? & _ & _ & _ & ? & _)]]; done. }
  destruct (getTheme DEFAULT_THEME_NAME) as [fallback|e2] eqn:Hdef; simpl.
  { split; [done|]. intros [?|[[_ ?]|(? & ? & _ & _ & _ & _ & ?)]]; done. }
  split.
  - intros [= <-]. right; right. exists saved, error.
    split_and!; try done. by eexists.
  - intros [?|[[_ ?]|(? & ? & _ & _ & _ & _ & [= <-])]]; done.
Qed.

End site_init.

Section site_init_examples.
Import SiteService SiteInit.

Lemma init_returns_ready_witness :
  ∃ s', init only_default_loads "default" (Ok [default_theme])
             (Ok (Some saved_fancy)) plain_default_site new_service = Ok s'
        ∧ themes s' = [default_theme]
        ∧ is_Some (themeConfig s').
Proof.
  assert (Hrun : ∃ s', init only_default_loads "default" (Ok [default_theme])
                         (Ok (Some saved_fancy)) plain_default_site new_service
                       = Ok s') by (by vm_compute; eexists).
  destruct Hrun as [s' Hs']. exists s'. split; [exact Hs'|].
  destruct (init_returns_ready _ _ _ _ _ _ _ Hs')
    as (themes_ & saved & sv' & Hthemes & _ & Hstored & _ & _ & _ & _ & Hactive & _).
  injection Hthemes as <-. by split.
Defined.

End site_init_examples.

(** ** Reading all the pages of the note store *)

Section fetch_all.
Import Joplin.
Context {T : Type} (fetchData : nat → result (list T * bool)).

(** The loop over pages that all announce more. *)
Lemma fetchAllData_loop_more (batches : list (list T)) :
  ∀ fuel result_ page,
    (∀ i items, batches !! i = Some items →
                fetchData (page + i) = Ok (items, true)) →
    fetchAllData_loop fetchData fuel result_ page
    = if decide (fuel ≤ length batches) then None
      else fetchAllData_loop fetchData (fuel - length batches)
             (result_ ++ concat batches) (page + length batches).
Proof.
  induction batches as [|items batches IH]; intros fuel result_ page Hpages.
  - simpl. rewrite app_nil_r, Nat.add_0_r, Nat.sub_0_r.
    destruct fuel; [done|]. by rewrite decide_False by lia.
  - destruct fuel as [|fuel]; [done|]. simpl.
    specialize (Hpages 0 items eq_refl) as Hfirst.
    rewrite Nat.add_0_r in Hfirst. rewrite Hfirst.
    rewrite (IH fuel (result_ ++ items) (S page)).
    + rewrite <- app_assoc. replace (S page + length batches)
        with (page + S (length batches)) by lia.
      destruct (decide (fuel ≤ length batches));
        [by rewrite decide_True by lia|by rewrite decide_False by lia].
    + intros i items' Hi. replace (S page + i) with (page + S i) by lia.
      by apply Hpages.
Qed.

(** X25. The notes of all the pages, in the order of the pages: when the pages
    [1..n] announce more and page [n+1] does not, the loop ends after
    [n+1] requests with the items of the [n+1] pages, one page after the
    other; no later page is read. *)
Theorem fetchAllData_concat
    (batches : list (list T)) (last_ : list T) (fuel : nat) :
  (∀ i items, batches !! i = Some items → fetchData (S i) = Ok (items, true)) →
  fetchData (S (length batches)) = Ok (last_, false) →
  fetchAllData fetchData fuel
  = if decide (fuel ≤ length batches) then None
    else Some (Ok (concat batches ++ last_)).
Proof.
  intros Hpages Hlast. unfold fetchAllData.
  rewrite (fetchAllData_loop_more batches) by exact Hpages.
  destruct (decide (fuel ≤ length batches)) as [|Hfuel]; [done|].
  destruct (fuel - length batches) as [|fuel'] eqn:Hrest; [lia|].
  simpl. by rewrite Hlast.
Qed.

(** X26. A page that is refused ends the reading with that error: the items of
    the pages before it are not returned. *)
Theorem fetchAllData_rejects
    (batches : list (list T)) (e : exn) (fuel : nat) :
  (∀ i items, batches !! i = Some items → fetchData (S i) = Ok (items, true)) →
  fetchData (S (length batches)) = Err e →
  length batches < fuel →
  fetchAllData fetchData fuel = Some (Err e).
Proof.
  intros Hpages Hlast Hfuel. unfold fetchAllData.
  rewrite (fetchAllData_loop_more batches) by exact Hpages.
  rewrite decide_False by lia.
  destruct (fuel - length batches) as [|fuel'] eqn:Hrest; [lia|].
  simpl. by rewrite Hlast.
Qed.

(** X27. The loop relies on the store to end it: when every page announces more,
    no number of requests is enough. *)
Theorem fetchAllData_endless (fuel : nat) :
  (∀ page, ∃ items, fetchData page = Ok (items, true)) →
  fetchAllData fetchData fuel = None.
Proof.
  intros Hmore. unfold fetchAllData. generalize (@nil T) 1.
  induction fuel as [|fuel IH]; intros result_ page; [done|]. simpl.
  destruct (Hmore page) as [items ->]. apply IH.
Qed.

End fetch_all.

Section fetch_examples.
Import Joplin.

Lemma fetchAllData_concat_witness :
  fetchAllData two_pages 5 = Some (Ok ["a"; "b"; "c"]).
Proof.
  apply (fetchAllData_concat two_pages [["a"; "b"]] ["c"] 5); [|done].
  intros [|i] items; [by intros [= <-]|done].
Defined.

Lemma fetchAllData_rejects_witness :
  fetchAllData second_page_refused 5 = Some (Err (Error "refused")).
Proof.
  apply (fetchAllData_rejects second_page_refused [["a"; "b"]]);
    [|done|simpl; lia].
  intros [|i] items; [by intros [= <-]|done].
Defined.

Lemma fetchAllData_endless_witness :
  fetchAllData always_more 1000 = None.
Proof.
  apply (fetchAllData_endless always_more). intros page. by eexists.
Defined.

End fetch_examples.

(** ** The calls of [publish] in any environment *)

Section publish_any_environment.
Import JS WorkerGit.
Context {St : Type} (handle : ∀ c : call, St → result (ret c) * St).



End publish_any_environment.

(** ** [publish] on the repository, to the end *)

Section publish_on_git.
Import JS WorkerGit.








End publish_on_git.

Section publish_examples.
Import JS WorkerGit.



End publish_examples.
